(** * IPTV add-on: the fetch cache, the channel filter, the stream joiner
      and the refresh pipeline of [main.py], as a shallow embedding.

    Python objects that the program mutates or shares (the JSON dicts kept in
    the module-level [cache]) live in an explicit heap and are passed around by
    reference, as in the source.  Every function of the source is a
    computation over one global state (the two cache dicts, the heap and the
    trace of observable effects) that may end in a Python exception. *)

From Stdlib Require Import ZArith.
From stdpp Require Import base option list gmap strings.

Local Open Scope Z_scope.

(** ** Constants (main.py, lines 8-16) *)

Definition IPTV_CHANNELS_URL : string := "https://iptv-org.github.io/api/channels.json".
Definition IPTV_STREAMS_URL : string := "https://iptv-org.github.io/api/streams.json".
Definition FETCH_INTERVAL : Z := 300.
Definition CACHE_TTL : Z := 600.

(** The three module-level filter lists.  [filter_channels] reads them as
    globals; they are gathered in a record so that properties can be stated
    for every setting of them. *)
Record policy := Policy {
  INCLUDED_COUNTRIES : list string;
  INCLUDED_LANGUAGES : list string;
  EXCLUDED_CATEGORIES : list string }.

Definition source_policy : policy :=
  {| INCLUDED_COUNTRIES := [];
     INCLUDED_LANGUAGES := ["fars"; "spa"; "ron"; "rus"; "fra"; "deu"; "eng"];
     EXCLUDED_CATEGORIES := [] |}.

(** ** Data model *)

(** A reference to a dict object on the heap. *)
Abbreviation loc := nat.

(** A JSON object as the program sees it: the keys the source ever reads or
    writes, each present ([Some]) or absent ([None], what [dict.get] without a
    default returns).  Channel and stream records are both such dicts.
    ['streams'] holds references to stream dicts. *)
Record pydict := PyDict {
  d_id : option string;
  d_name : option string;
  d_country : option string;
  d_languages : option (list string);
  d_categories : option (list string);
  d_logo : option string;
  d_streams : option (list loc);
  d_channel : option string;
  d_url : option string;
  d_title : option string }.

Definition empty_dict : pydict :=
  PyDict None None None None None None None None None None.

Global Instance pydict_inhabited : Inhabited pydict := populate empty_dict.

Global Instance pydict_eq_dec : EqDecision pydict.
Proof. solve_decision. Defined.

(** [channel['streams'] = v] *)
Definition set_streams (d : pydict) (v : list loc) : pydict :=
  PyDict (d_id d) (d_name d) (d_country d) (d_languages d) (d_categories d)
         (d_logo d) (Some v) (d_channel d) (d_url d) (d_title d).

(** A record as it arrives from upstream, before it becomes a heap object.
    Upstream records carry no ['streams'] key: that key is written by the
    join only.  The records of the model are the well-typed ones: a key is
    absent or holds a value of the type stated here; a key present with JSON
    [null], or with a value of another type, is not represented. *)
Record json_record := Json {
  j_id : option string;
  j_name : option string;
  j_country : option string;
  j_languages : option (list string);
  j_categories : option (list string);
  j_logo : option string;
  j_channel : option string;
  j_url : option string;
  j_title : option string }.

(** The dict that [response.json()] builds for one record. *)
Definition of_json (j : json_record) : pydict :=
  PyDict (j_id j) (j_name j) (j_country j) (j_languages j) (j_categories j)
         (j_logo j) None (j_channel j) (j_url j) (j_title j).

(** ** Exceptions *)

(** Why a [requests] call failed.  With requests 2.27 and later
    [response.json()] raises [requests.exceptions.JSONDecodeError], which is a
    [RequestException] like the transport and HTTP status errors. *)
Inductive failure :=
  | ConnectionError
  | Timeout
  | HTTPError (status : Z)
  | JSONDecodeError.

(** The exceptions of the model, all subclasses of Python's [Exception]. *)
Inductive exn :=
  | RequestException (why : failure)
  | KeyError (key : string)
  | OverflowError
  | OtherException (what : string).

Global Instance failure_eq_dec : EqDecision failure.
Proof. solve_decision. Defined.

Global Instance exn_eq_dec : EqDecision exn.
Proof. solve_decision. Defined.

Inductive result (A : Type) :=
  | Ok (a : A)
  | Raise (e : exn).
Arguments Ok {A} a.
Arguments Raise {A} e.

(** ** Observable effects *)

(** The lines the program prints, one constructor per [print] of the source. *)
Inductive message :=
  | ServingCached (url : string)                      (* line 31 *)
  | FetchingFresh (url : string)                      (* line 34 *)
  | FetchedItems (n : nat) (url : string)             (* line 41 *)
  | ErrorFetching (url : string) (why : failure)      (* line 44 *)
  | FilteringChannels (n : nat)                       (* line 49 *)
  | SampleHeader                                      (* line 53 *)
  | SampleChannel (i : nat) (name : string) (country : option string)
      (languages categories : option (list string))   (* lines 55, 107 *)
  | FilteredOut (name : string)                       (* line 72 *)
  | CountryLine (country : string) (ok : bool)        (* line 73 *)
  | LanguagesLine (languages : list string) (ok : bool)   (* line 74 *)
  | CategoriesLine (categories : list string) (ok : bool) (* line 75 *)
  | AfterFiltering (n : nat)                          (* line 77 *)
  | MatchingStreams (n : nat)                         (* line 82 *)
  | FetchingChannelsAndStreams                        (* line 91 *)
  | NoChannelsFetched                                 (* line 94 *)
  | NoStreamsFetched                                  (* line 98 *)
  | NoChannelsAfterFiltering                          (* line 105 *)
  | RefreshFetched (n : nat)                          (* line 116 *)
  | RefreshFoundNone                                  (* line 118 *)
  | ErrorRefreshing (e : exn).                        (* line 120 *)

(** What the outside world can see of a run: the HTTP requests sent and the
    lines printed, oldest first. *)
Inductive event :=
  | HttpGet (url : string)
  | Printed (m : message).

Global Instance message_eq_dec : EqDecision message.
Proof. solve_decision. Defined.

Global Instance event_eq_dec : EqDecision event.
Proof. solve_decision. Defined.

(** ** The global state *)

Record state := State {
  cache : gmap string (list loc);      (* line 22: url -> the parsed list *)
  cache_expiry : gmap string Z;        (* line 23: url -> datetime *)
  heap : list pydict;                  (* the dict objects, by reference *)
  trace : list event }.

(** The state at import time: both dicts empty. *)
Definition initial_state : state := State ∅ ∅ [] [].

(** ** Computations *)

Definition M (A : Type) : Type := state → result A * state.

Definition ret {A} (a : A) : M A := fun st => (Ok a, st).

Definition bind {A B} (c : M A) (k : A → M B) : M B :=
  fun st =>
    match c st with
    | (Ok a, st') => k a st'
    | (Raise e, st') => (Raise e, st')
    end.

Notation "'do' x <- c ; k" := (bind c (fun x => k))
  (at level 10, x name, c at level 99, k at level 200).
Notation "c ;; k" := (bind c (fun _ => k))
  (at level 100, k at level 200, right associativity).

Definition raise {A} (e : exn) : M A := fun st => (Raise e, st).

Definition emit (ev : event) : M unit :=
  fun st => (Ok tt, State (cache st) (cache_expiry st) (heap st) (trace st ++ [ev])).

Definition print (m : message) : M unit := emit (Printed m).

Definition get_state : M state := fun st => (Ok st, st).

(** What one call of [fetch_with_cache] gets from outside the program: the
    reading of [datetime.utcnow()] (microseconds since the epoch) and what
    the upstream server would answer if asked. *)
Inductive response :=
  | Payload (records : list json_record)
  | Failure (e : exn).

Record world := World {
  utcnow : Z;
  upstream : response }.

(** [timedelta(seconds=s)], in microseconds. *)
Definition timedelta_seconds (s : Z) : Z := s * 1000000.

(** [datetime.max], 9999-12-31 23:59:59.999999, in microseconds since the
    epoch. *)
Definition datetime_max : Z := 253402300799999999.

(** [now + delta] on datetimes, for a [delta] that is not negative: the sum
    is a datetime or the addition raises [OverflowError]. *)
Definition datetime_add (now delta : Z) : M Z :=
  if now + delta <=? datetime_max then ret (now + delta) else raise OverflowError.

(** [data = response.json(); cache[url] = data] (lines 38-39), where [data]
    is the list of freshly allocated dicts. *)
Definition store_data (url : string) (records : list json_record) : M (list loc) :=
  fun st =>
    let data := seq (length (heap st)) (length records) in
    (Ok data,
     State (<[url := data]> (cache st)) (cache_expiry st)
           (heap st ++ map of_json records) (trace st)).

(** [cache_expiry[url] = expiry] (line 40, the assignment) *)
Definition store_expiry (url : string) (expiry : Z) : M unit :=
  fun st =>
    (Ok tt,
     State (cache st) (<[url := expiry]> (cache_expiry st)) (heap st) (trace st)).

(** [url in cache and cache_expiry[url] > now] (line 30); the subscript
    raises [KeyError] when the key is missing. *)
Definition still_valid (url : string) (now : Z) : M bool :=
  fun st =>
    match cache st !! url with
    | None => (Ok false, st)
    | Some _ =>
        match cache_expiry st !! url with
        | None => (Raise (KeyError url), st)
        | Some expiry => (Ok (now <? expiry), st)
        end
    end.

(** [try: body except <class> as e: handler].  [handler e] is [None] when
    the [except] clause does not match the class of [e], which then
    propagates. *)
Definition try_except {A} (body : M A) (handler : exn → option (M A)) : M A :=
  fun st =>
    match body st with
    | (Ok a, st') => (Ok a, st')
    | (Raise e, st') =>
        match handler e with
        | Some h => h st'
        | None => (Raise e, st')
        end
    end.

(** [requests.get(url)], [raise_for_status()] and [response.json()]
    (lines 36-38): one HTTP request, then the records or the exception. *)
Definition requests_get_json (url : string) (w : world) : M (list json_record) :=
  emit (HttpGet url);;
  match upstream w with
  | Payload records => ret records
  | Failure e => raise e
  end.

(** ** [fetch_with_cache] (lines 26-45).  The result is [None] for Python's
    [None], [Some data] for a list. *)
Definition fetch_with_cache (url : string) (w : world) : M (option (list loc)) :=
  let now := utcnow w in
  do valid <- still_valid url now;
  if valid : bool then
    print (ServingCached url);;
    do st <- get_state;
    ret (cache st !! url)
  else
    print (FetchingFresh url);;
    try_except
      (do records <- requests_get_json url w;
       do data <- store_data url records;
       do expiry <- datetime_add now (timedelta_seconds CACHE_TTL);
       store_expiry url expiry;;
       print (FetchedItems (length data) url);;
       ret (Some data))
      (fun e =>
         match e with
         | RequestException why =>
             Some (print (ErrorFetching url why);;
                   do st <- get_state;
                   ret (cache st !! url))
         | _ => None
         end).

(** ** [filter_channels] (lines 48-78) *)

(** [x in l] for a list of strings. *)
Definition py_in (x : string) (l : list string) : bool := bool_decide (x ∈ l).

(** [any(f(x) for x in l)] *)
Definition py_any {A} (f : A → bool) (l : list A) : bool := existsb f l.

(** The dict a reference points to. *)
Definition deref (h : list pydict) (l : loc) : pydict := h !!! l.

(** Lines 54-55 and 106-107: [for i, channel in enumerate(channels[:5])]. *)
Fixpoint print_samples (i : nat) (channels : list loc) : M unit :=
  match channels with
  | [] => ret tt
  | channel :: rest =>
      do st <- get_state;
      let d := deref (heap st) channel in
      print (SampleChannel (i + 1)%nat (default "Unknown" (d_name d)) (d_country d)
                           (d_languages d) (d_categories d));;
      print_samples (S i) rest
  end.

Section Filter.
Variable pol : policy.

(** Line 64: [country in INCLUDED_COUNTRIES if INCLUDED_COUNTRIES else True] *)
Definition country_match (country : string) : bool :=
  match INCLUDED_COUNTRIES pol with
  | [] => true
  | _ :: _ => py_in country (INCLUDED_COUNTRIES pol)
  end.

(** Line 65 *)
Definition language_match (languages : list string) : bool :=
  py_any (fun lang => py_in lang (INCLUDED_LANGUAGES pol)) languages.

(** Line 66 *)
Definition category_match (categories : list string) : bool :=
  negb (py_any (fun cat => py_in cat (EXCLUDED_CATEGORIES pol)) categories).

(** The body of the loop of lines 57-75 decides by this test (line 69)
    whether [channel] is appended to [filtered]. *)
Definition passes (d : pydict) : bool :=
  let country := default "" (d_country d) in
  let languages := default [] (d_languages d) in
  let categories := default [] (d_categories d) in
  country_match country && language_match languages && category_match categories.

(** Lines 57-75, with the list [filtered] built so far. *)
Fixpoint filter_loop (channels : list loc) (filtered : list loc) : M (list loc) :=
  match channels with
  | [] => ret filtered
  | channel :: rest =>
      do st <- get_state;
      let d := deref (heap st) channel in
      let country := default "" (d_country d) in
      let languages := default [] (d_languages d) in
      let categories := default [] (d_categories d) in
      let country_match := country_match country in
      let language_match := language_match languages in
      let category_match := category_match categories in
      if country_match && language_match && category_match then
        filter_loop rest (filtered ++ [channel])
      else
        print (FilteredOut (default "Unknown" (d_name d)));;
        print (CountryLine country country_match);;
        print (LanguagesLine languages language_match);;
        print (CategoriesLine categories category_match);;
        filter_loop rest filtered
  end.

Definition filter_channels (channels : list loc) : M (list loc) :=
  print (FilteringChannels (length channels));;
  print SampleHeader;;
  print_samples 0%nat (take 5%nat channels);;
  do filtered <- filter_loop channels [];
  print (AfterFiltering (length filtered));;
  ret filtered.
End Filter.

(** ** [match_streams_to_channels] (lines 81-87) *)

Definition set_heap (h : list pydict) : M unit :=
  fun st => (Ok tt, State (cache st) (cache_expiry st) h (trace st)).

(** Line 84: the streams whose ['channel'] equals the channel's ['id'];
    both are read with [dict.get], so two absent keys compare equal. *)
Definition streams_of (h : list pydict) (channel : loc) (streams : list loc) : list loc :=
  filter (fun stream => d_channel (deref h stream) = d_id (deref h channel)) streams.

(** Lines 83-86 *)
Fixpoint match_loop (channels streams : list loc) : M unit :=
  match channels with
  | [] => ret tt
  | channel :: rest =>
      do st <- get_state;
      let channel_streams := streams_of (heap st) channel streams in
      match channel_streams with
      | _ :: _ =>
          set_heap (<[channel := set_streams (deref (heap st) channel) channel_streams]> (heap st))
      | [] => ret tt
      end;;
      match_loop rest streams
  end.

Definition match_streams_to_channels (channels streams : list loc) : M (list loc) :=
  print (MatchingStreams (length channels));;
  match_loop channels streams;;
  ret channels.

(** ** [fetch_channels] (lines 90-109) *)

(** Truth value of what [fetch_with_cache] returns: [None] and the empty
    list are false. *)
Definition truthy (v : option (list loc)) : bool :=
  match v with
  | Some (_ :: _) => true
  | _ => false
  end.

(** The list a value of [fetch_with_cache] stands for; the source uses the
    value as a list only after the truth test. *)
Definition as_list (v : option (list loc)) : list loc := default [] v.

(** [w1] and [w2] are what the channel fetch and the stream fetch get from
    outside.  The program runs this with [source_policy]. *)
Definition fetch_channels (pol : policy) (w1 w2 : world) : M (list loc) :=
  print FetchingChannelsAndStreams;;
  do channels <- fetch_with_cache IPTV_CHANNELS_URL w1;
  if negb (truthy channels) then
    print NoChannelsFetched;;
    ret []
  else
    do streams <- fetch_with_cache IPTV_STREAMS_URL w2;
    if negb (truthy streams) then
      print NoStreamsFetched;;
      ret []
    else
      do filtered_channels <- filter_channels pol (as_list channels);
      match filtered_channels with
      | [] =>
          print NoChannelsAfterFiltering;;
          print_samples 0%nat (take 5%nat (as_list channels))
      | _ :: _ => ret tt
      end;;
      match_streams_to_channels filtered_channels (as_list streams).

(** ** [refresh_data] (lines 112-120) and the scheduler (lines 123-125) *)

Definition refresh_data (pol : policy) (w1 w2 : world) : M unit :=
  try_except
    (do channels <- fetch_channels pol w1 w2;
     match channels with
     | _ :: _ => print (RefreshFetched (length channels))
     | [] => print RefreshFoundNone
     end)
    (fun e => Some (print (ErrorRefreshing e))).

(** The interval job: [refresh_data] once per tick, in order.  A tick brings
    what the two fetches of that run get from outside.  An exception that
    escaped the job would end the loop. *)
Fixpoint scheduler (pol : policy) (ticks : list (world * world)) : M unit :=
  match ticks with
  | [] => ret tt
  | (w1, w2) :: rest => refresh_data pol w1 w2;; scheduler pol rest
  end.

(** ** The HTTP handlers (lines 160-193), as far as they read the view *)

(** Line 184: [channel.get('streams', [])] *)
Definition attached_streams (d : pydict) : list loc := default [] (d_streams d).

(** ** Responses (lines 133-137) *)

(** One entry of ["metas"] (lines 165-171). *)
Record meta := Meta {
  m_id : option string;
  m_type : string;
  m_name : option string;
  m_poster : option string;
  m_genres : list string }.

(** One entry of ["streams"] (lines 186-189). *)
Record stream_entry := StreamEntry {
  e_title : string;
  e_url : option string }.

(** One entry of ["catalogs"] in the manifest (lines 150-155). *)
Record catalog_entry := CatalogEntry {
  c_type : string;
  c_id : string;
  c_name : string;
  c_genres : list string }.

(** The dict of lines 142-157. *)
Record manifest_dict := ManifestDict {
  mf_id : string;
  mf_version : string;
  mf_name : string;
  mf_description : string;
  mf_resources : list string;
  mf_types : list string;
  mf_catalogs : list catalog_entry }.

(** What the handlers hand to [jsonify]. *)
Inductive json_body :=
  | ManifestBody (m : manifest_dict)
  | MetasBody (metas : list meta)
  | StreamsBody (streams : list stream_entry).

Record http_response := HttpResponse {
  body : json_body;
  headers : gmap string string }.

(** [jsonify(data)]: a response with the JSON content type and no other
    header of interest. *)
Definition jsonify (data : json_body) : http_response :=
  HttpResponse data {["Content-Type" := "application/json"]}.

(** [resp.headers[name] = value] *)
Definition set_header (name value : string) (resp : http_response) : http_response :=
  HttpResponse (body resp) (<[name := value]> (headers resp)).

(** Lines 133-137 *)
Definition respond_with (data : json_body) : http_response :=
  let resp := jsonify data in
  let resp := set_header "Access-Control-Allow-Origin" "*" resp in
  let resp := set_header "Access-Control-Allow-Headers" "*" resp in
  resp.

(** ** [manifest] (lines 140-158) *)

Definition manifest_data : manifest_dict :=
  {| mf_id := "org.iptv.addon";
     mf_version := "0.0.1";
     mf_name := "IPTV Addon";
     mf_description := "Addon to fetch IPTV channels.";
     mf_resources := ["catalog"; "stream"];
     mf_types := ["tv"];
     mf_catalogs :=
       [ {| c_type := "tv";
            c_id := "iptv_catalog";
            c_name := "IPTV Channels";
            c_genres := ["Entertainment"; "News"; "Sports"] |} ] |}.

Definition manifest : http_response := respond_with (ManifestBody manifest_data).

(** ** [catalog] (lines 160-176) *)

(** Lines 165-171, for the dict at [channel]. *)
Definition meta_of (h : list pydict) (channel : loc) : meta :=
  let d := deref h channel in
  {| m_id := d_id d;
     m_type := "tv";
     m_name := d_name d;
     m_poster := d_logo d;
     m_genres := default [] (d_categories d) |}.

(** [type] and [id] are the two parts of the request path; [w1] and [w2]
    are what the pipeline run of the request gets from outside. *)
Definition catalog (pol : policy) (type id : string) (w1 w2 : world) : M http_response :=
  if bool_decide (type = "tv"%string) && bool_decide (id = "iptv_catalog"%string) then
    do channels <- fetch_channels pol w1 w2;
    do st <- get_state;
    let metas := map (meta_of (heap st)) channels in
    ret (jsonify (MetasBody metas))
  else
    ret (jsonify (MetasBody [])).

(** ** [stream] (lines 178-193) *)

(** Lines 186-189, for the dict at [stream]. *)
Definition entry_of (h : list pydict) (stream : loc) : stream_entry :=
  let d := deref h stream in
  {| e_title := default "Stream"%string (d_title d);
     e_url := d_url d |}.

(** The loop of lines 182-192, which returns at the first channel whose
    ['id'] is [id], and line 193 after it. *)
Fixpoint stream_loop (h : list pydict) (id : string) (channels : list loc) : http_response :=
  match channels with
  | [] => jsonify (StreamsBody [])
  | channel :: rest =>
      if bool_decide (d_id (deref h channel) = Some id) then
        let streams := attached_streams (deref h channel) in
        let streams_data := map (entry_of h) streams in
        jsonify (StreamsBody streams_data)
      else stream_loop h id rest
  end.

Definition stream (pol : policy) (type id : string) (w1 w2 : world) : M http_response :=
  if bool_decide (type = "tv"%string) then
    do channels <- fetch_channels pol w1 w2;
    do st <- get_state;
    ret (stream_loop (heap st) id channels)
  else
    ret (jsonify (StreamsBody [])).

(** ** Vocabulary of the statements *)

(** [st] with [tr] appended to its trace and nothing else changed. *)
Definition add_trace (st : state) (tr : list event) : state :=
  State (cache st) (cache_expiry st) (heap st) (trace st ++ tr).

(** A record with its ['streams'] key removed: what a record is apart from
    the join. *)
Definition unjoin (d : pydict) : pydict :=
  PyDict (d_id d) (d_name d) (d_country d) (d_languages d) (d_categories d)
         (d_logo d) None (d_channel d) (d_url d) (d_title d).

(** What the join leaves under ['streams'] of the record at [c]: the
    matching streams when [c] is one of the channels (a live reference) and
    has a match, and what was there before otherwise. *)
Definition joined_streams (h : list pydict) (channels streams : list loc)
    (c : loc) : option (list loc) :=
  if decide (c ∈ channels ∧ (c < length h)%nat ∧ streams_of h c streams ≠ [])
  then Some (streams_of h c streams)
  else d_streams (deref h c).

(** The state left by a list of [fetch_with_cache] calls, whatever each
    returned or raised. *)
Fixpoint run_calls (calls : list (string * world)) (st : state) : state :=
  match calls with
  | [] => st
  | (url, w) :: rest => run_calls rest (fetch_with_cache url w st).2
  end.

(** The six ways a call of [fetch_with_cache] can go, each with the result
    and the state it leaves. *)
Inductive fetch_outcome (url : string) (w : world) (st : state) :
    result (option (list loc)) * state → Prop :=
  | served_cached data expiry :
      cache st !! url = Some data →
      cache_expiry st !! url = Some expiry →
      utcnow w < expiry →
      fetch_outcome url w st
        (Ok (Some data), add_trace st [Printed (ServingCached url)])
  | expiry_missing data :
      cache st !! url = Some data →
      cache_expiry st !! url = None →
      fetch_outcome url w st (Raise (KeyError url), st)
  | fetched records :
      still_valid url (utcnow w) st = (Ok false, st) →
      upstream w = Payload records →
      utcnow w + timedelta_seconds CACHE_TTL ≤ datetime_max →
      let data := seq (length (heap st)) (length records) in
      fetch_outcome url w st
        (Ok (Some data),
         State (<[url := data]> (cache st))
               (<[url := utcnow w + timedelta_seconds CACHE_TTL]> (cache_expiry st))
               (heap st ++ map of_json records)
               (trace st ++ [Printed (FetchingFresh url); HttpGet url;
                             Printed (FetchedItems (length records) url)]))
  | overflowed records :
      still_valid url (utcnow w) st = (Ok false, st) →
      upstream w = Payload records →
      datetime_max < utcnow w + timedelta_seconds CACHE_TTL →
      let data := seq (length (heap st)) (length records) in
      fetch_outcome url w st
        (Raise OverflowError,
         State (<[url := data]> (cache st)) (cache_expiry st)
               (heap st ++ map of_json records)
               (trace st ++ [Printed (FetchingFresh url); HttpGet url]))
  | fell_back why :
      still_valid url (utcnow w) st = (Ok false, st) →
      upstream w = Failure (RequestException why) →
      fetch_outcome url w st
        (Ok (cache st !! url),
         add_trace st [Printed (FetchingFresh url); HttpGet url;
                       Printed (ErrorFetching url why)])
  | propagated e :
      still_valid url (utcnow w) st = (Ok false, st) →
      upstream w = Failure e →
      (∀ why, e ≠ RequestException why) →
      fetch_outcome url w st
        (Raise e, add_trace st [Printed (FetchingFresh url); HttpGet url]).

(** Every cached key has an expiry. *)
Definition cache_consistent (st : state) : Prop :=
  ∀ url, is_Some (cache st !! url) → is_Some (cache_expiry st !! url).

(** A clock reading from which line 40 can add the time to live. *)
Definition in_range (w : world) : Prop :=
  utcnow w + timedelta_seconds CACHE_TTL ≤ datetime_max.

(** The states the program can be in between two operations: it starts from
    the empty dicts and runs [fetch_with_cache], alone, inside a pipeline run
    made for a request, or inside a scheduled refresh. *)
Inductive reachable : state → Prop :=
  | reach_initial : reachable initial_state
  | reach_fetch url w st :
      reachable st → reachable (fetch_with_cache url w st).2
  | reach_pipeline pol w1 w2 st :
      reachable st → reachable (fetch_channels pol w1 w2 st).2
  | reach_refresh pol w1 w2 st :
      reachable st → reachable (refresh_data pol w1 w2 st).2.

(** Every reference the cache holds points into the heap. *)
Definition live_references (st : state) : Prop :=
  ∀ url data l, cache st !! url = Some data → l ∈ data → (l < length (heap st))%nat.

(** The URLs requested in a piece of trace, oldest first. *)
Definition requests_of (tr : list event) : list string :=
  omap (fun ev => match ev with HttpGet url => Some url | Printed _ => None end) tr.

(** A piece of trace that holds printed lines only. *)
Definition prints_only (tr : list event) : Prop := requests_of tr = [].

(** An upstream answer that [fetch_with_cache] handles: records, or one of
    the errors of [requests]. *)
Definition handled (r : response) : Prop :=
  match r with
  | Payload _ => True
  | Failure (RequestException _) => True
  | Failure _ => False
  end.

(** The states reachable with clock readings that are all in range. *)
Inductive reachable_in_range : state → Prop :=
  | in_range_initial : reachable_in_range initial_state
  | in_range_fetch url w st :
      in_range w →
      reachable_in_range st → reachable_in_range (fetch_with_cache url w st).2
  | in_range_pipeline pol w1 w2 st :
      in_range w1 → in_range w2 →
      reachable_in_range st → reachable_in_range (fetch_channels pol w1 w2 st).2
  | in_range_refresh pol w1 w2 st :
      in_range w1 → in_range w2 →
      reachable_in_range st → reachable_in_range (refresh_data pol w1 w2 st).2.

(** How often the pipeline was entered, read off the trace. *)
Definition pipeline_runs (tr : list event) : nat :=
  length (filter (fun ev => ev = Printed FetchingChannelsAndStreams) tr).

(** A piece of trace that does not contain the first line of a pipeline
    run. *)
Definition inner (tr : list event) : Prop :=
  Printed FetchingChannelsAndStreams ∉ tr.

(** The events of a call of [fetch_with_cache] on [url]. *)
Definition fetch_event (url : string) (ev : event) : Prop :=
  match ev with
  | HttpGet u
  | Printed (ServingCached u)
  | Printed (FetchingFresh u)
  | Printed (FetchedItems _ u)
  | Printed (ErrorFetching u _) => u = url
  | _ => False
  end.

(** The five ways a pipeline run can go.  [st0] is the state after the
    first line has been printed. *)
Inductive pipeline_outcome (pol : policy) (w1 w2 : world) (st : state) :
    result (list loc) * state → Prop :=
  | channels_raised e st1 :
      let st0 := add_trace st [Printed FetchingChannelsAndStreams] in
      fetch_with_cache IPTV_CHANNELS_URL w1 st0 = (Raise e, st1) →
      pipeline_outcome pol w1 w2 st (Raise e, st1)
  | no_channels r1 st1 :
      let st0 := add_trace st [Printed FetchingChannelsAndStreams] in
      fetch_with_cache IPTV_CHANNELS_URL w1 st0 = (Ok r1, st1) →
      truthy r1 = false →
      pipeline_outcome pol w1 w2 st
        (Ok [], add_trace st1 [Printed NoChannelsFetched])
  | streams_raised r1 st1 e st2 :
      let st0 := add_trace st [Printed FetchingChannelsAndStreams] in
      fetch_with_cache IPTV_CHANNELS_URL w1 st0 = (Ok r1, st1) →
      truthy r1 = true →
      fetch_with_cache IPTV_STREAMS_URL w2 st1 = (Raise e, st2) →
      pipeline_outcome pol w1 w2 st (Raise e, st2)
  | no_streams r1 st1 r2 st2 :
      let st0 := add_trace st [Printed FetchingChannelsAndStreams] in
      fetch_with_cache IPTV_CHANNELS_URL w1 st0 = (Ok r1, st1) →
      truthy r1 = true →
      fetch_with_cache IPTV_STREAMS_URL w2 st1 = (Ok r2, st2) →
      truthy r2 = false →
      pipeline_outcome pol w1 w2 st
        (Ok [], add_trace st2 [Printed NoStreamsFetched])
  | joined r1 st1 r2 st2 h' tr :
      let st0 := add_trace st [Printed FetchingChannelsAndStreams] in
      fetch_with_cache IPTV_CHANNELS_URL w1 st0 = (Ok r1, st1) →
      truthy r1 = true →
      fetch_with_cache IPTV_STREAMS_URL w2 st1 = (Ok r2, st2) →
      truthy r2 = true →
      let out := filter (λ c, passes pol (deref (heap st2) c) = true) (as_list r1) in
      map unjoin h' = map unjoin (heap st2) →
      (∀ c, d_streams (deref h' c)
            = joined_streams (heap st2) out (as_list r2) c) →
      inner tr →
      pipeline_outcome pol w1 w2 st
        (Ok out, State (cache st2) (cache_expiry st2) h' (trace st2 ++ tr)).

(** ** Concrete records and states used in the examples *)

Definition channel_json (id : string) (languages : list string) : json_record :=
  Json (Some id) None None (Some languages) None None None None None.

Definition stream_json (channel url : string) : json_record :=
  Json None None None None None None (Some channel) (Some url) None.

Definition ch1 : json_record := channel_json "ch1" ["eng"%string].
Definition ch2 : json_record := channel_json "ch2" ["jpn"%string].
Definition stream_a : json_record := stream_json "ch1" "http://a".
Definition stream_b : json_record := stream_json "ch3" "http://b".

(** The world [s] seconds after the start, answering [r]. *)
Definition at_second (s : Z) (r : response) : world :=
  World (timedelta_seconds s) r.

Definition upstream_down : response := Failure (RequestException ConnectionError).

(** The cache after one successful fetch of the channel resource at second 0:
    [ch1] is object 0, valid until second 600. *)
Definition warm_state : state :=
  (fetch_with_cache IPTV_CHANNELS_URL (at_second 0 (Payload [ch1])) initial_state).2.

(** The state after a first pipeline run at second 0 that got [ch1] and
    [stream_a]: [ch1] is object 0, [stream_a] object 1. *)
Definition first_run_state : state :=
  (fetch_channels source_policy (at_second 0 (Payload [ch1]))
                  (at_second 0 (Payload [stream_a])) initial_state).2.

(** A heap with [ch1] at 0 and [ch2] at 1, nothing cached. *)
Definition two_channels : state := State ∅ ∅ [of_json ch1; of_json ch2] [].

(** A heap in which the channel at 0 already carries the stream at 1 from an
    earlier join, and the stream at 2 belongs to another channel. *)
Definition joined_before : state :=
  State ∅ ∅ [set_streams (of_json ch1) [1%nat]; of_json stream_a; of_json stream_b] [].

(** * Properties *)

(** ** The fetch cache *)

Lemma add_trace_app st tr1 tr2 :
  add_trace (add_trace st tr1) tr2 = add_trace st (tr1 ++ tr2).
Proof. unfold add_trace; simpl. by rewrite <- app_assoc. Qed.

Lemma add_trace_nil st : add_trace st [] = st.
Proof. destruct st; unfold add_trace; simpl. by rewrite app_nil_r. Qed.

(** The part of [fetch_with_cache] after the validity test has failed. *)
Lemma fetch_with_cache_miss url w st :
  still_valid url (utcnow w) st = (Ok false, st) →
  fetch_outcome url w st (fetch_with_cache url w st).
Proof.
  intros Hv. unfold fetch_with_cache, bind. rewrite Hv.
  unfold print, emit, try_except, requests_get_json, bind; simpl.
  destruct (upstream w) as [records|e] eqn:Hup; simpl.
  - unfold store_data, datetime_add, store_expiry, ret, raise. simpl.
    destruct (Z.leb_spec (utcnow w + timedelta_seconds CACHE_TTL) datetime_max)
      as [Hle|Hgt]; simpl.
    + rewrite <- !app_assoc, length_seq; simpl. by apply fetched.
    + rewrite <- !app_assoc; simpl. by apply overflowed.
  - destruct e as [why| | |]; simpl.
    + rewrite <- !app_assoc; simpl. by apply (fell_back url w st why).
    + rewrite <- !app_assoc; simpl. by apply (propagated url w st).
    + rewrite <- !app_assoc; simpl. by apply (propagated url w st).
    + rewrite <- !app_assoc; simpl. by apply (propagated url w st).
Qed.

Lemma fetch_with_cache_outcome url w st :
  fetch_outcome url w st (fetch_with_cache url w st).
Proof.
  destruct (cache st !! url) as [data|] eqn:Hc.
  - destruct (cache_expiry st !! url) as [expiry|] eqn:He.
    + destruct (Z.ltb_spec (utcnow w) expiry) as [Hlt|Hge].
      * assert (fetch_with_cache url w st
                = (Ok (Some data), add_trace st [Printed (ServingCached url)])) as ->.
        { unfold fetch_with_cache, bind, still_valid. rewrite Hc, He.
          apply Z.ltb_lt in Hlt. rewrite Hlt. simpl. by rewrite Hc. }
        by eapply served_cached.
      * apply fetch_with_cache_miss. unfold still_valid. rewrite Hc, He.
        apply Z.ltb_ge in Hge. by rewrite Hge.
    + assert (fetch_with_cache url w st = (Raise (KeyError url), st)) as ->.
      { unfold fetch_with_cache, bind, still_valid. by rewrite Hc, He. }
      by eapply expiry_missing.
  - apply fetch_with_cache_miss. unfold still_valid. by rewrite Hc.
Qed.

Lemma still_valid_entry url now st data expiry :
  cache st !! url = Some data →
  cache_expiry st !! url = Some expiry →
  still_valid url now st = (Ok (now <? expiry), st).
Proof. intros Hc He. unfold still_valid. by rewrite Hc, He. Qed.

Lemma still_valid_absent url now st :
  cache st !! url = None → still_valid url now st = (Ok false, st).
Proof. intros Hc. unfold still_valid. by rewrite Hc. Qed.

(** A call inside the validity window of an entry serves that entry and
    sends no request, whatever the upstream would answer. *)
Lemma fetch_with_cache_hit url w st data expiry :
  cache st !! url = Some data →
  cache_expiry st !! url = Some expiry →
  utcnow w < expiry →
  fetch_with_cache url w st
  = (Ok (Some data), add_trace st [Printed (ServingCached url)]).
Proof.
  intros Hc He Hlt.
  pose proof (fetch_with_cache_outcome url w st) as Hout.
  pose proof (still_valid_entry url (utcnow w) st data expiry Hc He) as Hv.
  apply Z.ltb_lt in Hlt. rewrite Hlt in Hv.
  inversion Hout; congruence.
Qed.

(** What a call returns on success is what the cache holds for the key
    afterwards. *)
Lemma fetch_with_cache_result_cached url w st r st' :
  fetch_with_cache url w st = (Ok r, st') → cache st' !! url = r.
Proof.
  intros Hrun. pose proof (fetch_with_cache_outcome url w st) as Hout.
  rewrite Hrun in Hout. inversion Hout; subst; simpl; try done.
  by rewrite lookup_insert_eq.
Qed.

(** A call on [url'] leaves the entry of [url] as it is, unless it is a call
    on [url] itself made after the entry has expired; the heap only grows. *)
Lemma fetch_with_cache_keeps_entry url data expiry url' w st :
  cache st !! url = Some data →
  cache_expiry st !! url = Some expiry →
  (url' = url → utcnow w < expiry) →
  let st' := (fetch_with_cache url' w st).2 in
  cache st' !! url = Some data ∧ cache_expiry st' !! url = Some expiry ∧
  heap st `prefix_of` heap st'.
Proof.
  intros Hc He Hwin.
  destruct (decide (url' = url)) as [->|Hne].
  - rewrite (fetch_with_cache_hit url w st data expiry Hc He (Hwin eq_refl)).
    simpl. done.
  - pose proof (fetch_with_cache_outcome url' w st) as Hout.
    inversion Hout; subst; simpl; try done;
      rewrite ?lookup_insert_ne by done; (split_and!; try done);
      by apply prefix_app_r.
Qed.

Lemma run_calls_keeps_entry url data expiry calls st :
  cache st !! url = Some data →
  cache_expiry st !! url = Some expiry →
  (∀ w, (url, w) ∈ calls → utcnow w < expiry) →
  let st' := run_calls calls st in
  cache st' !! url = Some data ∧ cache_expiry st' !! url = Some expiry ∧
  heap st `prefix_of` heap st'.
Proof.
  revert st. induction calls as [|[url' w] calls IH]; intros st Hc He Hwin; simpl.
  - done.
  - destruct (fetch_with_cache_keeps_entry url data expiry url' w st Hc He)
      as (Hc' & He' & Hpre).
    { intros ->. apply Hwin. by left. }
    destruct (IH _ Hc' He') as (Hc'' & He'' & Hpre').
    { intros w' Hin. apply Hwin. by right. }
    split_and!; try done. by etrans.
Qed.

(** C2 (stale fallback).  When the upstream request for [url] fails with a
    transport, HTTP status or JSON decoding error and the cache holds an entry
    for [url], [fetch_with_cache] returns normally with the records of that
    entry (a list, not [None]) and leaves both cache dicts and all records as
    they were; when the entry has expired, so that the request is really sent,
    the failure is reported by the "Error fetching" line and by nothing
    else. *)
Theorem stale_fallback url w st data expiry why :
  cache st !! url = Some data →
  cache_expiry st !! url = Some expiry →
  upstream w = Failure (RequestException why) →
  ∃ st', fetch_with_cache url w st = (Ok (Some data), st') ∧
    cache st' = cache st ∧ cache_expiry st' = cache_expiry st ∧
    heap st' = heap st ∧
    (expiry ≤ utcnow w →
     trace st' = trace st ++ [Printed (FetchingFresh url); HttpGet url;
                              Printed (ErrorFetching url why)]).
Proof.
  intros Hc He Hup.
  pose proof (fetch_with_cache_outcome url w st) as Hout.
  pose proof (still_valid_entry url (utcnow w) st data expiry Hc He) as Hv.
  inversion Hout as [d e Hc' He' Hlt Heq|d Hc' He' Heq|rs Hv' Hup' Hle d Heq
                    |rs Hv' Hup' Hgt d Heq
                    |why' Hv' Hup' Heq|e Hv' Hup' Hne Heq]; try congruence.
  - eexists; split; [by rewrite Hc in Hc'; simplify_eq|]. simpl.
    split_and!; try done. intros Hge. rewrite He in He'. simplify_eq. lia.
  - eexists; split; [by rewrite Hc|]. simpl. split_and!; try done.
    intros _. congruence.
Qed.

(** C3 (cold miss).  When the upstream request for [url] fails and the cache
    holds nothing for [url], [fetch_with_cache] returns [None], which callers
    read as "no records", after one request and the "Error fetching" line,
    and stores nothing. *)
Theorem cold_miss url w st why :
  cache st !! url = None →
  upstream w = Failure (RequestException why) →
  ∃ r, fetch_with_cache url w st
       = (Ok r, add_trace st [Printed (FetchingFresh url); HttpGet url;
                              Printed (ErrorFetching url why)]) ∧
    r = None ∧ truthy r = false ∧ as_list r = [].
Proof.
  intros Hc Hup.
  pose proof (fetch_with_cache_outcome url w st) as Hout.
  inversion Hout as [d e Hc' He' Hlt Heq|d Hc' He' Heq|rs Hv' Hup' Hle d Heq
                    |rs Hv' Hup' Hgt d Heq
                    |why' Hv' Hup' Heq|e Hv' Hup' Hne Heq]; try congruence.
  exists None. rewrite Hup in Hup'. simplify_eq. by rewrite Hc.
Qed.

(** The cache on its own.  After a call for [url] that returned [r1], a
    later call for [url] made before the expiry of the entry serves [r1]
    again, when nothing but [fetch_with_cache] ran in between: it sends no
    request (its only effect is the "Serving cached data" line) and the
    records [r1] refers to are the objects they were.  A join in between
    writes into these objects; a run that shows it follows the pipeline
    properties below. *)
Lemma fresh_cache_between_fetches url w1 between w2 st r1 st1 expiry :
  fetch_with_cache url w1 st = (Ok r1, st1) →
  is_Some (cache st1 !! url) →
  cache_expiry st1 !! url = Some expiry →
  (∀ w, (url, w) ∈ between → utcnow w < expiry) →
  utcnow w2 < expiry →
  let st2 := run_calls between st1 in
  fetch_with_cache url w2 st2
  = (Ok r1, add_trace st2 [Printed (ServingCached url)]) ∧
  heap st1 `prefix_of` heap st2.
Proof.
  intros Hrun [data Hc] He Hbetween Hlt st2.
  pose proof (fetch_with_cache_result_cached _ _ _ _ _ Hrun) as Hr.
  destruct (run_calls_keeps_entry url data expiry between st1 Hc He Hbetween)
    as (Hc2 & He2 & Hpre).
  split; [|done]. fold st2 in Hc2, He2.
  rewrite (fetch_with_cache_hit url w2 st2 data expiry Hc2 He2 Hlt).
  congruence.
Qed.

(** ** The channel filter *)

Lemma py_in_spec x l : py_in x l = true ↔ x ∈ l.
Proof. unfold py_in. apply bool_decide_eq_true. Qed.

Lemma py_any_spec {A} (f : A → bool) l :
  py_any f l = true ↔ ∃ x, x ∈ l ∧ f x = true.
Proof.
  unfold py_any. rewrite existsb_exists.
  split; intros (x & Hin & Hf); exists x; split; try done;
    by apply list_elem_of_In.
Qed.

Lemma country_match_spec pol country :
  country_match pol country = true ↔
  INCLUDED_COUNTRIES pol = [] ∨ country ∈ INCLUDED_COUNTRIES pol.
Proof.
  unfold country_match. destruct (INCLUDED_COUNTRIES pol) as [|c cs] eqn:Hcs.
  - split; [by left | done].
  - rewrite py_in_spec. split; [by right | by intros [?|?]].
Qed.

Lemma language_match_spec pol languages :
  language_match pol languages = true ↔
  ∃ lang, lang ∈ languages ∧ lang ∈ INCLUDED_LANGUAGES pol.
Proof.
  unfold language_match. rewrite py_any_spec.
  split; intros (lang & Hin & Hok); exists lang; split; try done;
    by apply py_in_spec.
Qed.

Lemma category_match_spec pol categories :
  category_match pol categories = true ↔
  ∀ cat, cat ∈ categories → cat ∉ EXCLUDED_CATEGORIES pol.
Proof.
  unfold category_match. rewrite negb_true_iff, <- not_true_iff_false, py_any_spec.
  split.
  - intros Hno cat Hin Hex. apply Hno. exists cat. split; [done|].
    by apply py_in_spec.
  - intros Hall (cat & Hin & Hex). apply (Hall cat Hin). by apply py_in_spec.
Qed.

Lemma passes_spec pol d :
  passes pol d = true ↔
  (INCLUDED_COUNTRIES pol = [] ∨
   default ""%string (d_country d) ∈ INCLUDED_COUNTRIES pol) ∧
  (∃ lang, lang ∈ default [] (d_languages d) ∧ lang ∈ INCLUDED_LANGUAGES pol) ∧
  (∀ cat, cat ∈ default [] (d_categories d) → cat ∉ EXCLUDED_CATEGORIES pol).
Proof.
  unfold passes. cbv zeta.
  rewrite !andb_true_iff, country_match_spec, language_match_spec,
    category_match_spec.
  tauto.
Qed.

Lemma inner_nil : inner [].
Proof. apply not_elem_of_nil. Qed.

Lemma inner_cons ev tr :
  ev ≠ Printed FetchingChannelsAndStreams → inner tr → inner (ev :: tr).
Proof.
  unfold inner. rewrite elem_of_cons.
  intros Hne Hno [Heq|Hin]; [by apply Hne|by apply Hno].
Qed.

Lemma inner_app tr1 tr2 : inner tr1 → inner tr2 → inner (tr1 ++ tr2).
Proof. unfold inner. rewrite elem_of_app. tauto. Qed.

Create HintDb inner_db.
#[local] Hint Resolve inner_nil inner_cons inner_app : inner_db.
#[local] Hint Extern 1 (_ ≠ _) => discriminate : inner_db.

Lemma print_samples_spec channels i st :
  ∃ tr, print_samples i channels st = (Ok tt, add_trace st tr) ∧ inner tr.
Proof.
  revert i st. induction channels as [|c channels IH]; intros i st; simpl.
  - exists []. unfold ret. rewrite add_trace_nil. auto with inner_db.
  - unfold bind at 1. unfold get_state. unfold bind at 1.
    unfold print at 1, emit at 1.
    destruct (IH (S i) (add_trace st
      [Printed (SampleChannel (i + 1)
         (default "Unknown"%string (d_name (deref (heap st) c)))
         (d_country (deref (heap st) c)) (d_languages (deref (heap st) c))
         (d_categories (deref (heap st) c)))])) as (tr & Htr & Hin).
    unfold add_trace in Htr at 1. simpl in Htr. rewrite Htr.
    eexists. rewrite add_trace_app. split; [done|]. auto with inner_db.
Qed.

(** The loop appends to [filtered] the channels that pass, in order, and
    does nothing but print. *)
Lemma filter_loop_spec pol channels filtered st :
  ∃ tr, filter_loop pol channels filtered st
        = (Ok (filtered ++ filter (λ c, passes pol (deref (heap st) c) = true) channels),
           add_trace st tr) ∧ inner tr.
Proof.
  revert filtered st.
  induction channels as [|c channels IH]; intros filtered st; simpl.
  - exists []. unfold ret. rewrite add_trace_nil, app_nil_r. auto with inner_db.
  - unfold bind at 1. unfold get_state. cbv zeta.
    change (country_match pol (default ""%string (d_country (deref (heap st) c)))
            && language_match pol (default [] (d_languages (deref (heap st) c)))
            && category_match pol (default [] (d_categories (deref (heap st) c))))
      with (passes pol (deref (heap st) c)).
    rewrite filter_cons.
    destruct (passes pol (deref (heap st) c)) eqn:Hp.
    + rewrite decide_True by done.
      destruct (IH (filtered ++ [c]) st) as (tr & Htr & Hin). rewrite Htr.
      exists tr. by rewrite <- app_assoc.
    + rewrite decide_False by done.
      unfold bind, print, emit; simpl.
      match goal with
      | |- context [filter_loop pol channels filtered ?s] =>
          destruct (IH filtered s) as (tr & Htr & Hin); rewrite Htr
      end.
      eexists. unfold add_trace; simpl. rewrite <- !app_assoc.
      split; [reflexivity|]. simpl. auto 10 with inner_db.
Qed.

Lemma filter_channels_spec pol channels st :
  ∃ tr, filter_channels pol channels st
        = (Ok (filter (λ c, passes pol (deref (heap st) c) = true) channels),
           add_trace st tr) ∧ inner tr.
Proof.
  unfold filter_channels.
  unfold bind at 1. unfold print at 1, emit at 1.
  unfold bind at 1. unfold print at 1, emit at 1.
  unfold bind at 1.
  match goal with
  | |- context [print_samples ?i ?l ?s] =>
      destruct (print_samples_spec l i s) as (tr1 & Htr1 & Hin1); rewrite Htr1
  end.
  unfold bind at 1.
  match goal with
  | |- context [filter_loop pol channels [] ?s] =>
      destruct (filter_loop_spec pol channels [] s) as (tr2 & Htr2 & Hin2);
      rewrite Htr2
  end.
  simpl. unfold bind, print, emit, ret; simpl.
  eexists. unfold add_trace; simpl. rewrite <- !app_assoc.
  split; [reflexivity|]. simpl. auto 10 with inner_db.
Qed.

(** C1 (filter correctness).  A channel is in the output of [filter_channels]
    exactly when it is in the input and its country passes (the country list
    is empty or contains the channel's country, an absent country being read
    as the empty string), at least one of its languages is in the included
    languages, and none of its categories is in the excluded categories. *)
Theorem filter_correctness pol channels st :
  ∃ out st', filter_channels pol channels st = (Ok out, st') ∧
    ∀ c, c ∈ out ↔
      c ∈ channels ∧
      (INCLUDED_COUNTRIES pol = [] ∨
       default ""%string (d_country (deref (heap st) c)) ∈ INCLUDED_COUNTRIES pol) ∧
      (∃ lang, lang ∈ default [] (d_languages (deref (heap st) c)) ∧
               lang ∈ INCLUDED_LANGUAGES pol) ∧
      (∀ cat, cat ∈ default [] (d_categories (deref (heap st) c)) →
              cat ∉ EXCLUDED_CATEGORIES pol).
Proof.
  destruct (filter_channels_spec pol channels st) as (tr & Htr & _).
  eexists _, _. split; [exact Htr|].
  intros c. rewrite list_elem_of_filter, passes_spec. tauto.
Qed.

(** C10 (absent country).  With a country list that is not empty and does
    not list the empty string, a channel without a ['country'] key is not in
    the output of [filter_channels], whatever its languages and
    categories. *)
Theorem missing_country_excluded pol channels st c :
  INCLUDED_COUNTRIES pol ≠ [] →
  ""%string ∉ INCLUDED_COUNTRIES pol →
  d_country (deref (heap st) c) = None →
  ∃ out st', filter_channels pol channels st = (Ok out, st') ∧ c ∉ out.
Proof.
  intros Hne Hempty Hnone.
  destruct (filter_channels_spec pol channels st) as (tr & Htr & _).
  eexists _, _. split; [exact Htr|].
  rewrite list_elem_of_filter, passes_spec, Hnone. simpl.
  intros [[[?|?] _] _]; done.
Qed.

(** The parenthesis of C10 matters: were the empty string listed, a channel
    without country would pass the country test. *)
Example country_match_empty_string :
  passes (Policy [""%string] ["eng"%string] [])
         (of_json (channel_json "ch1" ["eng"%string])) = true.
Proof. reflexivity. Qed.

(** ** The stream joiner *)

Lemma unjoin_set_streams d v : unjoin (set_streams d v) = unjoin d.
Proof. reflexivity. Qed.

Lemma deref_unjoin h h' l :
  map unjoin h' = map unjoin h → unjoin (deref h' l) = unjoin (deref h l).
Proof.
  intros Heq. unfold deref. rewrite !list_lookup_total_alt.
  assert (map unjoin h' !! l = map unjoin h !! l) as Hl by by rewrite Heq.
  rewrite !list_lookup_fmap in Hl.
  destruct (h' !! l), (h !! l); cbn in *; congruence.
Qed.

Lemma streams_of_unjoin h h' c streams :
  map unjoin h' = map unjoin h → streams_of h' c streams = streams_of h c streams.
Proof.
  intros Heq. unfold streams_of.
  pose proof (deref_unjoin h h' c Heq) as Hc.
  apply list_filter_iff. intros s.
  pose proof (deref_unjoin h h' s Heq) as Hs.
  replace (d_id (deref h' c)) with (d_id (unjoin (deref h' c))) by done.
  replace (d_channel (deref h' s)) with (d_channel (unjoin (deref h' s))) by done.
  by rewrite Hc, Hs.
Qed.

Lemma unjoin_insert_streams h c v :
  map unjoin (<[c := set_streams (deref h c) v]> h) = map unjoin h.
Proof.
  change (map unjoin) with (fmap (M:=list) unjoin).
  rewrite list_fmap_insert, unjoin_set_streams.
  destruct (h !! c) as [d|] eqn:Hd.
  - apply list_insert_id. rewrite list_lookup_fmap, Hd. simpl.
    unfold deref. by rewrite (list_lookup_total_correct _ _ _ Hd).
  - apply list_insert_ge. rewrite length_fmap. by apply lookup_ge_None.
Qed.

Lemma deref_insert_streams h c v c' :
  d_streams (deref (<[c := set_streams (deref h c) v]> h) c')
  = if decide (c' = c ∧ (c < length h)%nat) then Some v else d_streams (deref h c').
Proof.
  unfold deref. rewrite !list_lookup_total_alt.
  destruct (decide (c' = c)) as [->|Hne].
  - destruct (decide (c < length h)%nat) as [Hlt|Hge].
    + rewrite list_lookup_insert_eq by done. by rewrite decide_True.
    + rewrite list_insert_ge by lia. rewrite decide_False; [done|].
      intros [_ ?]; done.
  - rewrite list_lookup_insert_ne by done. rewrite decide_False; [done|].
    intros [? _]; done.
Qed.

(** The loop changes nothing but ['streams'] keys, and leaves under them
    what [joined_streams] says. *)
Lemma match_loop_spec channels streams st :
  ∃ h', match_loop channels streams st
        = (Ok tt, State (cache st) (cache_expiry st) h' (trace st)) ∧
    map unjoin h' = map unjoin (heap st) ∧
    ∀ c, d_streams (deref h' c) = joined_streams (heap st) channels streams c.
Proof.
  revert st. induction channels as [|channel rest IH]; intros st.
  - exists (heap st). split; [by destruct st|]. split; [done|].
    intros c. unfold joined_streams. rewrite decide_False; [done|].
    intros [Hin _]. by apply not_elem_of_nil in Hin.
  - cbn [match_loop]. unfold bind at 1. unfold get_state. cbv zeta.
    unfold bind at 1.
    destruct (streams_of (heap st) channel streams) as [|s cs] eqn:Hcs.
    + unfold ret at 1. destruct (IH st) as (h' & Hrun & Hun & Hstreams).
      exists h'. split; [done|]. split; [done|].
      intros c. rewrite Hstreams. unfold joined_streams.
      destruct (decide (c = channel)) as [->|Hne].
      * rewrite !decide_False; [done| |]; intros (_ & _ & ?); done.
      * apply decide_ext. rewrite elem_of_cons. tauto.
    + unfold set_heap at 1.
      set (h1 := <[channel := set_streams (deref (heap st) channel) (s :: cs)]> (heap st)).
      destruct (IH (State (cache st) (cache_expiry st) h1 (trace st)))
        as (h' & Hrun & Hun & Hstreams).
      simpl in Hrun, Hun, Hstreams.
      assert (map unjoin h1 = map unjoin (heap st)) as Hun1
        by apply unjoin_insert_streams.
      exists h'. split; [done|]. split; [congruence|].
      intros c. rewrite Hstreams. unfold joined_streams.
      rewrite (streams_of_unjoin _ _ c streams Hun1).
      replace (length h1) with (length (heap st)) by (symmetry; apply length_insert).
      destruct (decide (c ∈ rest ∧ (c < length (heap st))%nat ∧
                        streams_of (heap st) c streams ≠ [])) as [Hin|Hout].
      * rewrite decide_True; [done|]. rewrite elem_of_cons. tauto.
      * unfold h1. rewrite deref_insert_streams.
        destruct (decide (c = channel ∧ (channel < length (heap st))%nat))
          as [[-> Hlt]|Hno].
        -- rewrite decide_True; [by rewrite Hcs|].
           rewrite Hcs. split_and!; [by left|done|done].
        -- rewrite decide_False; [done|]. rewrite elem_of_cons.
           intros ([->|?] & ? & ?); naive_solver.
Qed.

Lemma match_streams_to_channels_spec channels streams st :
  ∃ h', match_streams_to_channels channels streams st
        = (Ok channels,
           State (cache st) (cache_expiry st) h'
                 (trace st ++ [Printed (MatchingStreams (length channels))])) ∧
    map unjoin h' = map unjoin (heap st) ∧
    ∀ c, d_streams (deref h' c) = joined_streams (heap st) channels streams c.
Proof.
  unfold match_streams_to_channels.
  unfold bind at 1. unfold print at 1, emit at 1. unfold bind at 1.
  match goal with
  | |- context [match_loop channels streams ?s] =>
      destruct (match_loop_spec channels streams s) as (h' & Hrun & Hun & Hs)
  end.
  rewrite Hrun. simpl in *. exists h'. done.
Qed.

(** ** The refresh pipeline *)

Ltac inline_lets := repeat match goal with x := _ |- _ => subst x end.

(** A call on [url] adds to the trace only events of its own. *)
Lemma fetch_with_cache_trace url w st :
  ∃ tr, trace (fetch_with_cache url w st).2 = trace st ++ tr ∧
        Forall (fetch_event url) tr.
Proof.
  destruct (fetch_with_cache_outcome url w st); simpl;
    try (eexists; split; [reflexivity|]; by repeat constructor).
  exists []. by rewrite app_nil_r.
Qed.

Lemma fetch_event_excludes url tr ev :
  Forall (fetch_event url) tr → ¬ fetch_event url ev → ev ∉ tr.
Proof. rewrite Forall_forall. intros Hall Hev Hin. by apply Hev, Hall. Qed.

Lemma fetch_channels_outcome pol w1 w2 st :
  pipeline_outcome pol w1 w2 st (fetch_channels pol w1 w2 st).
Proof.
  unfold fetch_channels.
  unfold bind at 1. unfold print at 1, emit at 1.
  change (State (cache st) (cache_expiry st) (heap st)
                (trace st ++ [Printed FetchingChannelsAndStreams]))
    with (add_trace st [Printed FetchingChannelsAndStreams]).
  unfold bind at 1.
  destruct (fetch_with_cache IPTV_CHANNELS_URL w1
              (add_trace st [Printed FetchingChannelsAndStreams]))
    as [[r1|e] st1] eqn:H1; [|by apply channels_raised].
  destruct (truthy r1) eqn:Ht1; simpl; [|by eapply no_channels].
  unfold bind at 1.
  destruct (fetch_with_cache IPTV_STREAMS_URL w2 st1)
    as [[r2|e] st2] eqn:H2; [|by eapply streams_raised].
  destruct (truthy r2) eqn:Ht2; simpl; [|by eapply no_streams].
  unfold bind at 1.
  destruct (filter_channels_spec pol (as_list r1) st2) as (tr1 & Hf & Hin1).
  rewrite Hf. unfold bind at 1.
  set (out := filter (λ c, passes pol (deref (heap st2) c) = true) (as_list r1)).
  assert (∃ tr2, match out with
                 | [] => print NoChannelsAfterFiltering;;
                         print_samples 0 (take 5 (as_list r1))
                 | _ :: _ => ret tt
                 end (add_trace st2 tr1) = (Ok tt, add_trace st2 (tr1 ++ tr2))
                 ∧ inner tr2) as (tr2 & Hs & Hin2).
  { destruct out.
    - unfold bind at 1. unfold print at 1, emit at 1.
      match goal with
      | |- context [print_samples ?i ?l ?s] =>
          destruct (print_samples_spec l i s) as (tr & Htr & Hin); rewrite Htr
      end.
      eexists. unfold add_trace; simpl. rewrite <- !app_assoc.
      split; [reflexivity|]. simpl. auto with inner_db.
    - exists []. unfold ret. rewrite app_nil_r. auto with inner_db. }
  rewrite Hs.
  destruct (match_streams_to_channels_spec out (as_list r2)
              (add_trace st2 (tr1 ++ tr2))) as (h' & Hm & Hun & Hstreams).
  rewrite Hm. simpl. rewrite <- app_assoc.
  eapply joined; eauto 10 with inner_db.
Qed.

(** C7 (short circuits).  When the channel fetch returns nothing ([None] or
    an empty list), the run returns the empty view right after printing "No
    channels fetched.": no request for the stream resource is sent and
    nothing of the second fetch is read.  When the channel fetch returns
    records and the stream fetch returns nothing, the run returns the empty
    view right after printing "No streams fetched.": the filter and the join
    do not run, so no record is touched. *)
Theorem pipeline_short_circuits pol w1 w2 st r1 st1 :
  fetch_with_cache IPTV_CHANNELS_URL w1
    (add_trace st [Printed FetchingChannelsAndStreams]) = (Ok r1, st1) →
  (truthy r1 = false →
   ∃ tr, fetch_channels pol w1 w2 st
         = (Ok [], State (cache st1) (cache_expiry st1) (heap st1)
                         (trace st ++ tr)) ∧
         (HttpGet IPTV_STREAMS_URL ∉ tr) ∧
         trace st ++ tr = trace st1 ++ [Printed NoChannelsFetched]) ∧
  (truthy r1 = true →
   ∀ r2 st2, fetch_with_cache IPTV_STREAMS_URL w2 st1 = (Ok r2, st2) →
     truthy r2 = false →
     ∃ tr, fetch_channels pol w1 w2 st
           = (Ok [], State (cache st2) (cache_expiry st2) (heap st2)
                           (trace st ++ tr)) ∧
           (∀ n, (Printed (FilteringChannels n) ∉ tr) ∧
                 (Printed (MatchingStreams n) ∉ tr)) ∧
           trace st ++ tr = trace st2 ++ [Printed NoStreamsFetched]).
Proof.
  intros H1.
  destruct (fetch_with_cache_trace IPTV_CHANNELS_URL w1
              (add_trace st [Printed FetchingChannelsAndStreams]))
    as (tr1 & Htr1 & Hev1).
  rewrite H1 in Htr1. simpl in Htr1. split.
  - intros Ht.
    exists (Printed FetchingChannelsAndStreams :: tr1 ++ [Printed NoChannelsFetched]).
    assert (trace st ++ Printed FetchingChannelsAndStreams :: tr1
              ++ [Printed NoChannelsFetched]
            = trace st1 ++ [Printed NoChannelsFetched]) as Htr.
    { rewrite Htr1. by rewrite <- !app_assoc. }
    split_and!; [| |done].
    + rewrite Htr.
      destruct (fetch_channels_outcome pol w1 w2 st); inline_lets;
        unfold add_trace in *; congruence.
    + rewrite elem_of_cons, elem_of_app, list_elem_of_singleton.
      intros [?|[Hin|?]]; try done.
      by apply (fetch_event_excludes _ _ _ Hev1) in Hin.
  - intros Ht r2 st2 H2 Ht2.
    destruct (fetch_with_cache_trace IPTV_STREAMS_URL w2 st1)
      as (tr2 & Htr2 & Hev2).
    rewrite H2 in Htr2. simpl in Htr2.
    exists (Printed FetchingChannelsAndStreams :: tr1 ++ tr2
            ++ [Printed NoStreamsFetched]).
    assert (trace st ++ Printed FetchingChannelsAndStreams :: tr1 ++ tr2
              ++ [Printed NoStreamsFetched]
            = trace st2 ++ [Printed NoStreamsFetched]) as Htr.
    { rewrite Htr2, Htr1. by rewrite <- !app_assoc. }
    split_and!; [| |done].
    + rewrite Htr.
      destruct (fetch_channels_outcome pol w1 w2 st); inline_lets;
        unfold add_trace in *; congruence.
    + intros n. rewrite !elem_of_cons, !elem_of_app, !list_elem_of_singleton.
      split; (intros [?|[Hin|[Hin|?]]]; try done);
        first [apply (fetch_event_excludes _ _ _ Hev1) in Hin
              |apply (fetch_event_excludes _ _ _ Hev2) in Hin]; cbn; tauto.
Qed.

(** ** The scheduled refresh *)

Lemma fetch_event_inner url tr : Forall (fetch_event url) tr → inner tr.
Proof.
  intros Hall. apply (fetch_event_excludes url); [done|]. cbn. tauto.
Qed.

(** A pipeline run prints its first line once. *)
Lemma fetch_channels_trace pol w1 w2 st :
  ∃ tr, trace (fetch_channels pol w1 w2 st).2
        = trace st ++ Printed FetchingChannelsAndStreams :: tr ∧ inner tr.
Proof.
  destruct (fetch_channels_outcome pol w1 w2 st); inline_lets; simpl;
    repeat match goal with
    | H : fetch_with_cache ?url ?w ?s = (_, ?s') |- _ =>
        let tr := fresh "tr" in
        let Htr := fresh "Htr" in
        let Hev := fresh "Hev" in
        destruct (fetch_with_cache_trace url w s) as (tr & Htr & Hev);
        rewrite H in Htr; simpl in Htr; apply fetch_event_inner in Hev;
        clear H
    end;
    repeat match goal with H : trace _ = _ |- _ => rewrite H; clear H end;
    rewrite <- ?app_assoc; simpl;
    (eexists; split; [reflexivity|]); auto 10 with inner_db.
Qed.

Lemma pipeline_runs_app tr1 tr2 :
  pipeline_runs (tr1 ++ tr2) = (pipeline_runs tr1 + pipeline_runs tr2)%nat.
Proof. unfold pipeline_runs. by rewrite filter_app, length_app. Qed.

Lemma pipeline_runs_cons ev tr :
  pipeline_runs (ev :: tr)
  = ((if decide (ev = Printed FetchingChannelsAndStreams) then 1 else 0)
     + pipeline_runs tr)%nat.
Proof. unfold pipeline_runs. rewrite filter_cons. by case_decide. Qed.

Lemma pipeline_runs_inner tr : inner tr → pipeline_runs tr = 0%nat.
Proof.
  unfold inner, pipeline_runs. induction tr as [|ev tr IH]; [done|].
  rewrite elem_of_cons. intros Hno. rewrite filter_cons.
  destruct (decide (ev = Printed FetchingChannelsAndStreams)); naive_solver.
Qed.

(** [refresh_data] turns either end of the pipeline run into a printed line. *)
Lemma refresh_data_outcome pol w1 w2 st :
  refresh_data pol w1 w2 st
  = match fetch_channels pol w1 w2 st with
    | (Ok [], st') => (Ok tt, add_trace st' [Printed RefreshFoundNone])
    | (Ok (c :: cs), st') =>
        (Ok tt, add_trace st' [Printed (RefreshFetched (length (c :: cs)))])
    | (Raise e, st') => (Ok tt, add_trace st' [Printed (ErrorRefreshing e)])
    end.
Proof.
  unfold refresh_data, try_except, bind.
  by destruct (fetch_channels pol w1 w2 st) as [[[|c cs]|e] st'].
Qed.

Lemma refresh_data_runs pol w1 w2 st :
  ∃ st', refresh_data pol w1 w2 st = (Ok tt, st') ∧
    pipeline_runs (trace st') = S (pipeline_runs (trace st)).
Proof.
  rewrite refresh_data_outcome.
  destruct (fetch_channels_trace pol w1 w2 st) as (tr & Htr & Hin).
  destruct (fetch_channels pol w1 w2 st) as [[[|c cs]|e] st']; simpl in Htr;
    (eexists; split; [reflexivity|]); simpl; rewrite Htr;
    rewrite !pipeline_runs_app, !pipeline_runs_cons, (pipeline_runs_inner tr Hin);
    rewrite decide_True by done; rewrite decide_False by done;
    unfold pipeline_runs; simpl; lia.
Qed.

(** C8 (scheduled refresh).  [refresh_data] always returns normally; when
    the pipeline run inside it raises, the exception ends there as an "Error
    refreshing data" line; and the scheduler, run over any list of ticks,
    returns normally after one pipeline run per tick. *)
Theorem scheduled_refresh_never_raises pol :
  (∀ w1 w2 st, ∃ st', refresh_data pol w1 w2 st = (Ok tt, st')) ∧
  (∀ w1 w2 st e st1,
     fetch_channels pol w1 w2 st = (Raise e, st1) →
     refresh_data pol w1 w2 st
     = (Ok tt, add_trace st1 [Printed (ErrorRefreshing e)])) ∧
  (∀ ticks st, ∃ st',
     scheduler pol ticks st = (Ok tt, st') ∧
     pipeline_runs (trace st')
     = (pipeline_runs (trace st) + length ticks)%nat).
Proof.
  split_and!.
  - intros w1 w2 st.
    destruct (refresh_data_runs pol w1 w2 st) as (st' & Hrun & _). eauto.
  - intros w1 w2 st e st1 Hraise. by rewrite refresh_data_outcome, Hraise.
  - intros ticks. induction ticks as [|[w1 w2] ticks IH]; intros st; simpl.
    + exists st. split; [done|]. lia.
    + destruct (refresh_data_runs pol w1 w2 st) as (st1 & Hrun & Hcount).
      destruct (IH st1) as (st' & Hloop & Hcount').
      exists st'. unfold bind. rewrite Hrun. split; [done|]. lia.
Qed.

(** ** The cache invariant *)

Lemma fetch_with_cache_consistent url w st :
  in_range w →
  cache_consistent st → cache_consistent (fetch_with_cache url w st).2.
Proof.
  unfold in_range. intros Hw Hinv.
  destruct (fetch_with_cache_outcome url w st); simpl; try done; [|lia].
  intros k. simpl. destruct (decide (k = url)) as [->|Hne].
  - by rewrite !lookup_insert_eq.
  - rewrite !lookup_insert_ne by done. apply Hinv.
Qed.

Lemma cache_consistent_maps st st' :
  cache st' = cache st → cache_expiry st' = cache_expiry st →
  cache_consistent st → cache_consistent st'.
Proof. unfold cache_consistent. intros -> ->. done. Qed.

Lemma fetch_channels_consistent pol w1 w2 st :
  in_range w1 → in_range w2 →
  cache_consistent st → cache_consistent (fetch_channels pol w1 w2 st).2.
Proof.
  intros Hw1 Hw2 Hinv.
  assert (cache_consistent (add_trace st [Printed FetchingChannelsAndStreams]))
    as Hinv0 by done.
  destruct (fetch_channels_outcome pol w1 w2 st); inline_lets; simpl;
    repeat match goal with
    | H : fetch_with_cache ?url ?w ?s = (_, ?s'),
      Hw : in_range ?w, Hs : cache_consistent ?s |- _ =>
        let Hs' := fresh "Hinv" in
        pose proof (fetch_with_cache_consistent url w s Hw Hs) as Hs';
        rewrite H in Hs'; simpl in Hs'; clear H
    end; done.
Qed.

(** [refresh_data] leaves the state of its pipeline run, one line added. *)
Lemma refresh_data_state pol w1 w2 st :
  ∃ ev, (refresh_data pol w1 w2 st).2
        = add_trace (fetch_channels pol w1 w2 st).2 [ev].
Proof.
  rewrite refresh_data_outcome.
  destruct (fetch_channels pol w1 w2 st) as [[[|c cs]|e] st']; by eexists.
Qed.

Lemma initial_state_consistent : cache_consistent initial_state.
Proof. intros url. simpl. rewrite lookup_empty. by intros [? ?]. Qed.

Lemma reachable_in_range_consistent st :
  reachable_in_range st → cache_consistent st.
Proof.
  induction 1 as [|url w st Hw _ IH|pol w1 w2 st Hw1 Hw2 _ IH
                 |pol w1 w2 st Hw1 Hw2 _ IH].
  - apply initial_state_consistent.
  - by apply fetch_with_cache_consistent.
  - by apply fetch_channels_consistent.
  - destruct (refresh_data_state pol w1 w2 st) as [ev ->].
    by apply (fetch_channels_consistent pol w1 w2) in IH.
Qed.


Lemma fetch_with_cache_live url w st :
  live_references st → live_references (fetch_with_cache url w st).2.
Proof.
  intros Hlive. destruct (fetch_with_cache_outcome url w st); simpl; try done.
  all: intros k d l; simpl; rewrite length_app, length_map;
    destruct (decide (k = url)) as [->|Hne];
    [ rewrite lookup_insert_eq; intros [= <-] Hin;
      apply elem_of_seq in Hin; lia
    | rewrite lookup_insert_ne by done; intros Hk Hin;
      pose proof (Hlive k d l Hk Hin); lia ].
Qed.

Lemma fetch_channels_live pol w1 w2 st :
  live_references st → live_references (fetch_channels pol w1 w2 st).2.
Proof.
  intros Hlive.
  assert (live_references (add_trace st [Printed FetchingChannelsAndStreams]))
    as Hlive0 by done.
  destruct (fetch_channels_outcome pol w1 w2 st) as [| | | |? ? ? ? h' ? ? ? ? ? ? ? Hun];
    inline_lets; simpl;
    repeat match goal with
    | H : fetch_with_cache ?url ?w ?s = (_, ?s'), Hs : live_references ?s |- _ =>
        let Hs' := fresh "Hlive" in
        pose proof (fetch_with_cache_live url w s Hs) as Hs';
        rewrite H in Hs'; simpl in Hs'; clear H
    end; try done.
  intros k d l. simpl. apply (f_equal length) in Hun.
  rewrite !length_map in Hun. rewrite Hun.
  match goal with H : live_references _ |- _ => apply H end.
Qed.

(** In a reachable state no cached reference dangles, so [deref] never
    falls back on its default. *)
Lemma reachable_live st : reachable st → live_references st.
Proof.
  induction 1 as [|url w st _ IH|pol w1 w2 st _ IH|pol w1 w2 st _ IH].
  - intros url data l. simpl. by rewrite lookup_empty.
  - by apply fetch_with_cache_live.
  - by apply fetch_channels_live.
  - destruct (refresh_data_state pol w1 w2 st) as [ev ->].
    by apply (fetch_channels_live pol w1 w2) in IH.
Qed.

(** With clock readings in range the two dicts keep the same keys: in every
    state reached that way each key of [cache] is a key of [cache_expiry],
    the validity test of line 30 does not raise, and a fetch that gets
    records leaves the key in both dicts. *)
Lemma cache_keys_have_expiry_in_range st :
  reachable_in_range st →
  cache_consistent st ∧
  (∀ url now, ∃ valid, still_valid url now st = (Ok valid, st)) ∧
  (∀ url w records,
     in_range w →
     still_valid url (utcnow w) st = (Ok false, st) →
     upstream w = Payload records →
     let st' := (fetch_with_cache url w st).2 in
     is_Some (cache st' !! url) ∧
     cache_expiry st' !! url = Some (utcnow w + timedelta_seconds CACHE_TTL)).
Proof.
  intros Hreach. pose proof (reachable_in_range_consistent st Hreach) as Hinv.
  split_and!; [done| |].
  - intros url now. unfold still_valid.
    destruct (cache st !! url) as [data|] eqn:Hc; [|by eexists].
    destruct (Hinv url) as [expiry He]; [by eexists|].
    rewrite He. by eexists.
  - unfold in_range. intros url w records Hw Hv Hup.
    destruct (fetch_with_cache_outcome url w st) as [data expiry Hc He Hlt
      |data Hc He|records' _ _ _ data|records' _ _ Hgt data
      |why _ Hup'|e _ Hup' _]; simpl; try congruence.
    + rewrite (still_valid_entry _ _ _ _ _ Hc He) in Hv.
      apply Z.ltb_lt in Hlt. congruence.
    + unfold still_valid in Hv. rewrite Hc, He in Hv. congruence.
    + rewrite !lookup_insert_eq. split; [by eexists|done].
    + lia.
Qed.


(** ** Examples of the end-to-end scenarios *)

Example scenario_filter :
  (filter_channels (Policy [] ["eng"%string] []) [0; 1]%nat
     (State ∅ ∅ [of_json ch1; of_json ch2] [])).1 = Ok [0%nat].
Proof. reflexivity. Qed.

Example scenario_join :
  (fetch_channels (Policy [] ["eng"%string] [])
     (at_second 0 (Payload [ch1; ch2]))
     (at_second 0 (Payload [stream_a; stream_b])) initial_state).1 = Ok [0%nat] ∧
  attached_streams
    (deref (heap (fetch_channels (Policy [] ["eng"%string] [])
       (at_second 0 (Payload [ch1; ch2]))
       (at_second 0 (Payload [stream_a; stream_b])) initial_state).2) 0) = [2%nat].
Proof. split; vm_compute; reflexivity. Qed.

Example scenario_cold_failure :
  (fetch_channels source_policy (at_second 0 upstream_down)
     (at_second 0 upstream_down) initial_state).1 = Ok [].
Proof. reflexivity. Qed.

(** ** The join on records and on the cache *)

(** On a channel that carries no ['streams'] yet, the join attaches exactly
    the matching streams, in the order of the stream list, and leaves the key
    absent when there is none. *)
Lemma join_of_unjoined_channel channels streams st c :
  c ∈ channels →
  (c < length (heap st))%nat →
  d_streams (deref (heap st) c) = None →
  ∃ st', match_streams_to_channels channels streams st = (Ok channels, st') ∧
    attached_streams (deref (heap st') c) = streams_of (heap st) c streams ∧
    (streams_of (heap st) c streams = [] → d_streams (deref (heap st') c) = None).
Proof.
  intros Hin Hlt Hnone.
  destruct (match_streams_to_channels_spec channels streams st)
    as (h' & Hrun & _ & Hstreams).
  eexists. split; [exact Hrun|]. simpl.
  unfold attached_streams. rewrite Hstreams. unfold joined_streams.
  destruct (streams_of (heap st) c streams) as [|s cs] eqn:Hcs.
  - rewrite decide_False by (by intros (_ & _ & ?)). by rewrite Hnone.
  - rewrite decide_True by done. done.
Qed.

(** Two channels with the same ['id'] get the same streams. *)
Lemma join_same_id h c1 c2 streams :
  d_id (deref h c1) = d_id (deref h c2) →
  streams_of h c1 streams = streams_of h c2 streams.
Proof. intros Hid. unfold streams_of. by rewrite Hid. Qed.

(** The matching streams are a sublist of the stream list. *)
Lemma streams_of_sublist h c streams : streams_of h c streams `sublist_of` streams.
Proof. apply sublist_filter. Qed.

(** What a pipeline run may change in the records that existed before it:
    their ['streams'] keys, and nothing else. *)
Lemma fetch_with_cache_heap url w st :
  heap st `prefix_of` heap (fetch_with_cache url w st).2.
Proof.
  destruct (fetch_with_cache_outcome url w st); simpl; try done;
    by apply prefix_app_r.
Qed.

Lemma fetch_channels_frame pol w1 w2 st :
  map unjoin (heap st) `prefix_of` map unjoin (heap (fetch_channels pol w1 w2 st).2).
Proof.
  assert (∀ h1 h2 : list pydict, h1 `prefix_of` h2 →
            map unjoin h1 `prefix_of` map unjoin h2) as Hmap.
  { intros h1 h2 [k ->]. rewrite map_app. by apply prefix_app_r. }
  destruct (fetch_channels_outcome pol w1 w2 st); inline_lets; simpl;
    repeat match goal with
    | H : fetch_with_cache ?url ?w ?s = (_, ?s') |- _ =>
        let Hp := fresh "Hp" in
        pose proof (fetch_with_cache_heap url w s) as Hp;
        rewrite H in Hp; simpl in Hp; apply Hmap in Hp; clear H
    end;
    repeat match goal with H : map unjoin _ = _ |- _ => rewrite H; clear H end;
    by repeat (etrans; [eassumption|]).
Qed.

(** C4 (join), where the code departs from it.  The channel at 0 carries
    the stream at 1 from an earlier join; joined against a stream list in
    which nothing matches it, it keeps that stream, although the matching
    sublist is empty.  The pipeline reaches this: after a first run, a second
    run whose channel request fails (the cached channel objects are served)
    and whose stream request brings a new list returns the channel with the
    stream of the first run, which the current stream list no longer has. *)
Theorem join_keeps_earlier_streams :
  (match_streams_to_channels [0%nat] [2%nat] joined_before).1 = Ok [0%nat] ∧
  streams_of (heap joined_before) 0 [2%nat] = [] ∧
  attached_streams
    (deref (heap (match_streams_to_channels [0%nat] [2%nat] joined_before).2) 0)
  = [1%nat] ∧
  let second_run :=
    fetch_channels source_policy (at_second 700 upstream_down)
                   (at_second 700 (Payload [stream_b])) first_run_state in
  second_run.1 = Ok [0%nat] ∧
  cache second_run.2 !! IPTV_STREAMS_URL = Some [2%nat] ∧
  streams_of (heap second_run.2) 0 [2%nat] = [] ∧
  attached_streams (deref (heap second_run.2) 0) = [1%nat].
Proof. repeat split; vm_compute; reflexivity. Qed.

(** C5 (purity of the join), where the code departs from it.  The channel
    record the cache holds has no ['streams'] key before a pipeline run and
    has one after it: the run serves the cached list, and the join writes
    into the very objects of that list. *)
Theorem join_writes_into_cached_records :
  let run :=
    fetch_channels source_policy (at_second 10 upstream_down)
                   (at_second 10 (Payload [stream_a])) warm_state in
  cache warm_state !! IPTV_CHANNELS_URL = Some [0%nat] ∧
  cache run.2 !! IPTV_CHANNELS_URL = Some [0%nat] ∧
  run.1 = Ok [0%nat] ∧
  d_streams (deref (heap warm_state) 0) = None ∧
  d_streams (deref (heap run.2) 0) = Some [1%nat] ∧
  deref (heap warm_state) 0 ≠ deref (heap run.2) 0.
Proof. repeat split; vm_compute; try reflexivity. discriminate. Qed.

(** C6 (fresh cache), where the code departs from it.  A pipeline run at
    second 0 looks the channel resource up (line 92), looks the stream
    resource up (line 96), filters (line 101) and joins (line 109); the next
    run, at second 10, looks the channel resource up again.  That second
    look-up is within the 600 seconds of the entry and nothing fetched the
    channel resource in between.  It sends no request, as the claim says,
    and returns the list the first look-up returned; but the record in that
    list is not the record the first look-up returned: the join of the first
    run (line 86) has written a ['streams'] key into it meanwhile. *)
Theorem fresh_cache_serves_joined_records :
  let opened := add_trace initial_state [Printed FetchingChannelsAndStreams] in
  let first :=
    fetch_with_cache IPTV_CHANNELS_URL (at_second 0 (Payload [ch1])) opened in
  let second_resource :=
    fetch_with_cache IPTV_STREAMS_URL (at_second 0 (Payload [stream_a])) first.2 in
  let filtered := filter_channels source_policy [0%nat] second_resource.2 in
  let joined := match_streams_to_channels [0%nat] [1%nat] filtered.2 in
  let second :=
    fetch_with_cache IPTV_CHANNELS_URL (at_second 10 upstream_down)
      (add_trace joined.2 [Printed FetchingChannelsAndStreams]) in
  first.1 = Ok (Some [0%nat]) ∧
  second_resource.1 = Ok (Some [1%nat]) ∧
  filtered.1 = Ok [0%nat] ∧
  fetch_channels source_policy (at_second 0 (Payload [ch1]))
                 (at_second 0 (Payload [stream_a])) initial_state = joined ∧
  cache_expiry joined.2 !! IPTV_CHANNELS_URL = Some (timedelta_seconds 600) ∧
  second.1 = Ok (Some [0%nat]) ∧
  requests_of (trace second.2) = requests_of (trace joined.2) ∧
  map (deref (heap first.2)) [0%nat] = [of_json ch1] ∧
  map (deref (heap second.2)) [0%nat] = [set_streams (of_json ch1) [1%nat]] ∧
  map (deref (heap second.2)) [0%nat] ≠ map (deref (heap first.2)) [0%nat].
Proof.
  intros opened first second_resource filtered joined second.
  repeat apply conj; vm_compute; try reflexivity. discriminate.
Qed.

(** ** The properties at concrete inputs *)

Ltac evaluate := vm_compute; reflexivity.

(** C2 at the warm cache: at second 700 the entry of second 0 has expired,
    the request fails, and object 0 is served. *)
Lemma stale_fallback_witness :
  cache warm_state !! IPTV_CHANNELS_URL = Some [0%nat] ∧
  cache_expiry warm_state !! IPTV_CHANNELS_URL = Some (timedelta_seconds 600) ∧
  (fetch_with_cache IPTV_CHANNELS_URL (at_second 700 upstream_down) warm_state).1
  = Ok (Some [0%nat]).
Proof.
  split; [evaluate|]. split; [evaluate|].
  destruct (stale_fallback IPTV_CHANNELS_URL (at_second 700 upstream_down)
              warm_state [0%nat] (timedelta_seconds 600) ConnectionError)
    as (st' & Hrun & _); [evaluate..|].
  rewrite Hrun. reflexivity.
Defined.

(** C3 at the empty cache. *)
Lemma cold_miss_witness :
  cache initial_state !! IPTV_CHANNELS_URL = None ∧
  (fetch_with_cache IPTV_CHANNELS_URL (at_second 0 upstream_down) initial_state).1
  = Ok None.
Proof.
  split; [evaluate|].
  destruct (cold_miss IPTV_CHANNELS_URL (at_second 0 upstream_down)
              initial_state ConnectionError)
    as (r & Hrun & -> & _); [evaluate..|].
  rewrite Hrun. reflexivity.
Defined.

(** The cache on its own: a fetch at second 0, then a fetch of the stream
    resource and a second look at the channel resource, then at second 100
    the channel resource again, with the upstream down. *)
Lemma fresh_cache_between_fetches_witness :
  let between := [(IPTV_STREAMS_URL, at_second 1 (Payload [stream_a]));
                  (IPTV_CHANNELS_URL, at_second 5 upstream_down)] in
  let w2 := at_second 100 (Failure (OtherException "down")) in
  (fetch_with_cache IPTV_CHANNELS_URL w2 (run_calls between warm_state)).1
  = Ok (Some [0%nat]).
Proof.
  intros between w2.
  destruct (fresh_cache_between_fetches IPTV_CHANNELS_URL
              (at_second 0 (Payload [ch1])) between
              w2 initial_state (Some [0%nat]) warm_state (timedelta_seconds 600))
    as [Hrun _].
  - evaluate.
  - exists [0%nat]. evaluate.
  - evaluate.
  - intros w Hin. unfold between in Hin.
    apply elem_of_cons in Hin as [Heq|Hin]; [discriminate Heq|].
    apply list_elem_of_singleton in Hin. injection Hin as ->. evaluate.
  - evaluate.
  - rewrite Hrun. reflexivity.
Defined.

(** C7: at the empty cache, a failing channel request ends the run before
    the stream request; a failing stream request ends it before the filter. *)
Lemma pipeline_short_circuits_witness :
  (fetch_channels source_policy (at_second 0 upstream_down)
     (at_second 0 (Payload [stream_a])) initial_state).1 = Ok [] ∧
  (fetch_channels source_policy (at_second 0 (Payload [ch1]))
     (at_second 0 upstream_down) initial_state).1 = Ok [].
Proof.
  split.
  - destruct (pipeline_short_circuits source_policy (at_second 0 upstream_down)
                (at_second 0 (Payload [stream_a])) initial_state None
                (fetch_with_cache IPTV_CHANNELS_URL (at_second 0 upstream_down)
                   (add_trace initial_state [Printed FetchingChannelsAndStreams])).2)
      as [Hnone _]; [evaluate|].
    destruct Hnone as (tr & Hrun & _); [evaluate|].
    rewrite Hrun. reflexivity.
  - destruct (pipeline_short_circuits source_policy (at_second 0 (Payload [ch1]))
                (at_second 0 upstream_down) initial_state (Some [0%nat])
                (fetch_with_cache IPTV_CHANNELS_URL (at_second 0 (Payload [ch1]))
                   (add_trace initial_state [Printed FetchingChannelsAndStreams])).2)
      as [_ Hsome]; [evaluate|].
    destruct (Hsome eq_refl None
                (fetch_with_cache IPTV_STREAMS_URL (at_second 0 upstream_down)
                   (fetch_with_cache IPTV_CHANNELS_URL (at_second 0 (Payload [ch1]))
                      (add_trace initial_state
                         [Printed FetchingChannelsAndStreams])).2).2)
      as (tr & Hrun & _); [evaluate..|].
    rewrite Hrun. reflexivity.
Defined.

(** C8: the upstream raises something that is not a request error; the
    pipeline run raises it, [refresh_data] does not. *)
Lemma scheduled_refresh_never_raises_witness :
  let w := at_second 0 (Failure (OtherException "boom")) in
  (fetch_channels source_policy w w initial_state).1
  = Raise (OtherException "boom") ∧
  (refresh_data source_policy w w initial_state).1 = Ok tt.
Proof.
  intros w. split; [evaluate|].
  destruct (scheduled_refresh_never_raises source_policy) as (_ & Hcatch & _).
  rewrite (Hcatch w w initial_state (OtherException "boom")
             (fetch_channels source_policy w w initial_state).2);
    [reflexivity|evaluate].
Defined.

(** The invariant at the state after a first pipeline run at second 0. *)
Lemma cache_keys_have_expiry_in_range_witness :
  reachable_in_range first_run_state ∧ cache_consistent first_run_state.
Proof.
  assert (reachable_in_range first_run_state) as Hreach.
  { apply in_range_pipeline; [by vm_compute..|apply in_range_initial]. }
  split; [exact Hreach|].
  exact (proj1 (cache_keys_have_expiry_in_range first_run_state Hreach)).
Defined.

(** C10: with only "US" listed, [ch1], which has no country, is filtered
    out although its language is included. *)
Lemma missing_country_excluded_witness :
  let pol := Policy ["US"%string] ["eng"%string] [] in
  let st := State ∅ ∅ [of_json ch1] [] in
  passes (Policy [] ["eng"%string] []) (deref (heap st) 0) = true ∧
  ∃ out st', filter_channels pol [0%nat] st = (Ok out, st') ∧ 0%nat ∉ out.
Proof.
  intros pol st. split; [evaluate|].
  apply (missing_country_excluded pol [0%nat] st 0%nat).
  - discriminate.
  - intros Hin. apply list_elem_of_singleton in Hin. discriminate Hin.
  - evaluate.
Defined.

(** * Further properties of the code *)

(** ** The fetch cache: what is stored, when a request is sent *)


Lemma requests_of_app tr1 tr2 :
  requests_of (tr1 ++ tr2) = requests_of tr1 ++ requests_of tr2.
Proof. unfold requests_of. apply omap_app. Qed.

(** A call that finds no valid entry and gets records, at a clock reading in
    range, ends in one way. *)
Lemma fetch_with_cache_fetched url w st records :
  in_range w →
  still_valid url (utcnow w) st = (Ok false, st) →
  upstream w = Payload records →
  fetch_with_cache url w st
  = (Ok (Some (seq (length (heap st)) (length records))),
     State (<[url := seq (length (heap st)) (length records)]> (cache st))
           (<[url := utcnow w + timedelta_seconds CACHE_TTL]> (cache_expiry st))
           (heap st ++ map of_json records)
           (trace st ++ [Printed (FetchingFresh url); HttpGet url;
                         Printed (FetchedItems (length records) url)])).
Proof.
  unfold in_range. intros Hw Hv Hup.
  destruct (fetch_with_cache_outcome url w st) as [data expiry Hc He Hlt
    |data Hc He|records' _ Hup' _ data|records' _ _ Hgt data
    |why _ Hup'|e _ Hup' _]; try congruence.
  - rewrite (still_valid_entry _ _ _ _ _ Hc He) in Hv.
    apply Z.ltb_lt in Hlt. congruence.
  - unfold still_valid in Hv. rewrite Hc, He in Hv. congruence.
  - subst data. rewrite Hup in Hup'. by injection Hup' as <-.
  - lia.
Qed.


(** X2 (expiry is strict).  With an entry present, a call sends a request
    exactly when the clock reading is not before the expiry: at the expiry
    itself the entry is no longer served. *)
Theorem request_sent_iff_expired url w st data expiry :
  cache st !! url = Some data →
  cache_expiry st !! url = Some expiry →
  requests_of (trace (fetch_with_cache url w st).2)
  = requests_of (trace st) ++ (if decide (utcnow w < expiry) then [] else [url]).
Proof.
  intros Hc He.
  pose proof (still_valid_entry url (utcnow w) st data expiry Hc He) as Hv.
  destruct (fetch_with_cache_outcome url w st) as [data' expiry' Hc' He' Hlt
    |data' Hc' He'|records Hv' _ _ data'|records Hv' _ _ data'
    |why Hv' _|e Hv' _ _]; simpl;
    try congruence; rewrite ?requests_of_app; simpl.
  - rewrite decide_True by congruence. done.
  - rewrite decide_False; [done|]. rewrite Hv in Hv'.
    intros Hlt%Z.ltb_lt. congruence.
  - rewrite decide_False; [done|]. rewrite Hv in Hv'.
    intros Hlt%Z.ltb_lt. congruence.
  - rewrite decide_False; [done|]. rewrite Hv in Hv'.
    intros Hlt%Z.ltb_lt. congruence.
  - rewrite decide_False; [done|]. rewrite Hv in Hv'.
    intros Hlt%Z.ltb_lt. congruence.
Qed.

(** X3 (a failure stores nothing).  Whatever the upstream raises, the call
    leaves both cache dicts and the heap as they were: a failure neither
    drops an entry nor renews its expiry. *)
Theorem failed_fetch_keeps_the_cache url w st e :
  upstream w = Failure e →
  let st' := (fetch_with_cache url w st).2 in
  cache st' = cache st ∧ cache_expiry st' = cache_expiry st ∧ heap st' = heap st.
Proof.
  intros Hup.
  destruct (fetch_with_cache_outcome url w st); simpl; try done; congruence.
Qed.

(** X4 (only request errors fall back).  When no valid entry is there and
    the upstream raises something that is not a [RequestException], the call
    raises it after the request, also when the cache holds older records for
    the key. *)
Theorem other_exceptions_propagate url w st e :
  still_valid url (utcnow w) st = (Ok false, st) →
  upstream w = Failure e →
  (∀ why, e ≠ RequestException why) →
  fetch_with_cache url w st
  = (Raise e, add_trace st [Printed (FetchingFresh url); HttpGet url]).
Proof.
  intros Hv Hup Hne.
  destruct (fetch_with_cache_outcome url w st) as [data expiry Hc He Hlt
    |data Hc He|records _ Hup' _ data|records _ Hup' _ data
    |why _ Hup'|e' _ Hup' _]; try congruence.
  - rewrite (still_valid_entry _ _ _ _ _ Hc He) in Hv.
    apply Z.ltb_lt in Hlt. congruence.
  - unfold still_valid in Hv. rewrite Hc, He in Hv. congruence.
Qed.

(** ** The channel filter: order, repetition, absent keys *)

Lemma prints_only_app tr1 tr2 :
  prints_only tr1 → prints_only tr2 → prints_only (tr1 ++ tr2).
Proof. unfold prints_only. rewrite requests_of_app. by intros -> ->. Qed.

Lemma print_samples_prints channels i st :
  ∃ tr, print_samples i channels st = (Ok tt, add_trace st tr) ∧ prints_only tr.
Proof.
  revert i st. induction channels as [|c channels IH]; intros i st; simpl.
  - exists []. unfold ret. by rewrite add_trace_nil.
  - unfold bind at 1. unfold get_state. unfold bind at 1.
    unfold print at 1, emit at 1.
    match goal with
    | |- context [print_samples (S i) channels ?s] =>
        destruct (IH (S i) s) as (tr & Htr & Hp); rewrite Htr
    end.
    eexists. unfold add_trace; simpl. rewrite <- !app_assoc.
    split; [reflexivity|]. by apply (prints_only_app [_]).
Qed.

Lemma filter_loop_prints pol channels filtered st :
  ∃ out tr, filter_loop pol channels filtered st = (Ok out, add_trace st tr) ∧
    prints_only tr.
Proof.
  revert filtered st.
  induction channels as [|c channels IH]; intros filtered st; simpl.
  - exists filtered, []. unfold ret. by rewrite add_trace_nil.
  - unfold bind at 1. unfold get_state. cbv zeta.
    destruct (country_match pol _ && language_match pol _ && category_match pol _).
    + apply IH.
    + unfold bind, print, emit; simpl.
      match goal with
      | |- context [filter_loop pol channels filtered ?s] =>
          destruct (IH filtered s) as (out & tr & Htr & Hp); rewrite Htr
      end.
      eexists _, _. unfold add_trace; simpl. rewrite <- !app_assoc.
      split; [reflexivity|]. by apply (prints_only_app [_; _; _; _]).
Qed.

Lemma filter_channels_prints pol channels st :
  ∃ out tr, filter_channels pol channels st = (Ok out, add_trace st tr) ∧
    prints_only tr.
Proof.
  unfold filter_channels.
  unfold bind at 1. unfold print at 1, emit at 1.
  unfold bind at 1. unfold print at 1, emit at 1.
  unfold bind at 1.
  match goal with
  | |- context [print_samples ?i ?l ?s] =>
      destruct (print_samples_prints l i s) as (tr1 & Htr1 & Hp1); rewrite Htr1
  end.
  unfold bind at 1.
  match goal with
  | |- context [filter_loop pol channels [] ?s] =>
      destruct (filter_loop_prints pol channels [] s) as (out & tr2 & Htr2 & Hp2);
      rewrite Htr2
  end.
  simpl. unfold bind, print, emit, ret; simpl.
  eexists _, _. unfold add_trace; simpl. rewrite <- !app_assoc.
  split; [reflexivity|].
  apply (prints_only_app [_; _]); [done|].
  apply prints_only_app; [done|]. by apply prints_only_app.
Qed.

(** X5 (the filter selects, in order, and touches nothing).  The output of
    [filter_channels] is a sublist of its input: the same references, in the
    same relative order, none added.  The call sends no request and changes
    neither the cache dicts nor any record. *)
Theorem filter_selects_in_order pol channels st :
  ∃ out tr, filter_channels pol channels st = (Ok out, add_trace st tr) ∧
    out `sublist_of` channels ∧ prints_only tr.
Proof.
  destruct (filter_channels_spec pol channels st) as (tr & Hrun & _).
  destruct (filter_channels_prints pol channels st) as (out & tr' & Htr & Hp).
  rewrite Hrun in Htr. injection Htr as <- Htr. apply app_inv_head in Htr as <-.
  eexists _, tr. split; [exact Hrun|]. split; [apply sublist_filter|done].
Qed.

(** X6 (filtering twice).  Filtering the output of [filter_channels] again,
    under the same policy, returns it unchanged. *)
Theorem filter_twice pol channels st out st' :
  filter_channels pol channels st = (Ok out, st') →
  (filter_channels pol out st').1 = Ok out.
Proof.
  intros Hrun.
  destruct (filter_channels_spec pol channels st) as (tr & Hrun1 & _).
  rewrite Hrun1 in Hrun. injection Hrun as <- <-.
  destruct (filter_channels_spec pol
              (filter (λ c, passes pol (deref (heap st) c) = true) channels)
              (add_trace st tr)) as (tr2 & Hrun2 & _).
  rewrite Hrun2. simpl. f_equal.
  rewrite list_filter_filter. apply list_filter_iff. tauto.
Qed.

(** X7 (absent or empty languages).  Under every policy, a channel without
    a ['languages'] key, or with an empty list under it, is not in the output
    of [filter_channels]. *)
Theorem missing_languages_excluded pol channels st c :
  default [] (d_languages (deref (heap st) c)) = [] →
  ∃ out st', filter_channels pol channels st = (Ok out, st') ∧ c ∉ out.
Proof.
  intros Hnone.
  destruct (filter_channels_spec pol channels st) as (tr & Htr & _).
  eexists _, _. split; [exact Htr|].
  rewrite list_elem_of_filter, passes_spec, Hnone.
  intros [(_ & (lang & Hin & _) & _) _]. by apply not_elem_of_nil in Hin.
Qed.

(** ** The stream joiner: what it writes and what it leaves *)

Lemma pydict_ext d d' : unjoin d = unjoin d' → d_streams d = d_streams d' → d = d'.
Proof. destruct d, d'. unfold unjoin. simpl. intros [= -> -> -> -> -> -> -> -> ->] ->. done. Qed.

Lemma heap_ext (h h' : list pydict) :
  length h = length h' → (∀ l, deref h l = deref h' l) → h = h'.
Proof.
  intros Hlen Hderef. apply list_eq. intros i.
  destruct (decide (i < length h)%nat) as [Hlt|Hge].
  - rewrite (list_lookup_lookup_total_lt h i) by done.
    rewrite (list_lookup_lookup_total_lt h' i) by lia.
    f_equal. apply Hderef.
  - rewrite !lookup_ge_None_2 by lia. done.
Qed.

Lemma unjoin_length (h h' : list pydict) :
  map unjoin h' = map unjoin h → length h' = length h.
Proof. intros Heq. apply (f_equal length) in Heq. by rewrite !length_map in Heq. Qed.

(** X8 (the join writes ['streams'] keys of its channels only).
    [match_streams_to_channels] returns the channel list it was given.  In
    every record it leaves all keys but ['streams'] as they were; records
    that are not among its channels, the stream records for one, it leaves
    entirely as they were.  It creates no object, sends no request and
    changes neither cache dict. *)
Theorem join_writes_streams_keys_only channels streams st :
  ∃ st', match_streams_to_channels channels streams st = (Ok channels, st') ∧
    cache st' = cache st ∧ cache_expiry st' = cache_expiry st ∧
    length (heap st') = length (heap st) ∧
    (∀ l, unjoin (deref (heap st') l) = unjoin (deref (heap st) l)) ∧
    (∀ l, l ∉ channels → deref (heap st') l = deref (heap st) l) ∧
    requests_of (trace st') = requests_of (trace st).
Proof.
  destruct (match_streams_to_channels_spec channels streams st)
    as (h' & Hrun & Hun & Hstreams).
  eexists. split; [exact Hrun|]. simpl. split_and!; try done.
  - by apply unjoin_length.
  - intros l. by apply deref_unjoin.
  - intros l Hnot. apply pydict_ext; [by apply deref_unjoin|].
    rewrite Hstreams. unfold joined_streams.
    rewrite decide_False; [done|]. by intros [? _].
  - rewrite requests_of_app. simpl. by rewrite app_nil_r.
Qed.

(** X9 (a match replaces what was there).  For a channel of the list that
    has at least one matching stream, the join leaves exactly the matching
    streams under ['streams'], in the order of the stream list, whatever the
    key held before. *)
Theorem join_replaces_on_match channels streams st c :
  c ∈ channels →
  (c < length (heap st))%nat →
  streams_of (heap st) c streams ≠ [] →
  ∃ st', match_streams_to_channels channels streams st = (Ok channels, st') ∧
    d_streams (deref (heap st') c) = Some (streams_of (heap st) c streams) ∧
    streams_of (heap st) c streams `sublist_of` streams.
Proof.
  intros Hin Hlt Hne.
  destruct (match_streams_to_channels_spec channels streams st)
    as (h' & Hrun & _ & Hstreams).
  eexists. split; [exact Hrun|]. simpl. split; [|apply sublist_filter].
  rewrite Hstreams. unfold joined_streams. by rewrite decide_True.
Qed.

(** X10 (joining twice).  Running the join again on the same channels and
    streams changes no record. *)
Theorem join_twice channels streams st st1 :
  match_streams_to_channels channels streams st = (Ok channels, st1) →
  ∃ st2, match_streams_to_channels channels streams st1 = (Ok channels, st2) ∧
    heap st2 = heap st1.
Proof.
  intros Hrun.
  destruct (match_streams_to_channels_spec channels streams st)
    as (h1 & Hrun1 & Hun1 & Hs1).
  rewrite Hrun1 in Hrun. injection Hrun as <-.
  destruct (match_streams_to_channels_spec channels streams
              (State (cache st) (cache_expiry st) h1
                 (trace st ++ [Printed (MatchingStreams (length channels))])))
    as (h2 & Hrun2 & Hun2 & Hs2).
  simpl in Hrun2, Hun2, Hs2.
  eexists. split; [exact Hrun2|]. simpl.
  apply heap_ext; [by apply unjoin_length|].
  intros l. apply pydict_ext; [by apply deref_unjoin|].
  rewrite Hs2, Hs1. unfold joined_streams.
  rewrite (streams_of_unjoin _ _ l streams Hun1), (unjoin_length _ _ Hun1).
  case_decide; [done|]. rewrite Hs1. unfold joined_streams.
  by rewrite decide_False.
Qed.

(** ** The pipeline: requests, the view and the cache *)

Lemma still_valid_frame url now st st' :
  cache st' !! url = cache st !! url →
  cache_expiry st' !! url = cache_expiry st !! url →
  (still_valid url now st').1 = (still_valid url now st).1.
Proof.
  intros Hc He. unfold still_valid. rewrite Hc, He.
  by destruct (cache st !! url), (cache_expiry st !! url).
Qed.

Lemma still_valid_state url now st : (still_valid url now st).2 = st.
Proof.
  unfold still_valid.
  by destruct (cache st !! url), (cache_expiry st !! url).
Qed.

(** A call leaves the entries of the other keys alone. *)
Lemma fetch_with_cache_other url url' w st :
  url' ≠ url →
  cache (fetch_with_cache url' w st).2 !! url = cache st !! url ∧
  cache_expiry (fetch_with_cache url' w st).2 !! url = cache_expiry st !! url.
Proof.
  intros Hne. destruct (fetch_with_cache_outcome url' w st); simpl; try done;
    by rewrite !lookup_insert_ne.
Qed.

(** The requests of one call: none, or one for its own key. *)
Lemma fetch_with_cache_requests url w st :
  ∃ reqs, requests_of (trace (fetch_with_cache url w st).2)
          = requests_of (trace st) ++ reqs ∧
    reqs `sublist_of` [url].
Proof.
  destruct (fetch_with_cache_outcome url w st); simpl;
    rewrite ?requests_of_app; simpl.
  - exists []. split; [done|]. apply sublist_nil_l.
  - exists []. split; [by rewrite app_nil_r|]. apply sublist_nil_l.
  - by exists [url].
  - by exists [url].
  - by exists [url].
  - by exists [url].
Qed.

Lemma urls_differ : IPTV_STREAMS_URL ≠ IPTV_CHANNELS_URL.
Proof. discriminate. Qed.

(** After two fetches that returned records, the rest of the run only
    prints. *)
Lemma fetch_channels_tail pol w1 w2 st r1 st1 r2 st2 :
  fetch_with_cache IPTV_CHANNELS_URL w1
    (add_trace st [Printed FetchingChannelsAndStreams]) = (Ok r1, st1) →
  truthy r1 = true →
  fetch_with_cache IPTV_STREAMS_URL w2 st1 = (Ok r2, st2) →
  truthy r2 = true →
  ∃ tr, trace (fetch_channels pol w1 w2 st).2 = trace st2 ++ tr ∧ prints_only tr.
Proof.
  intros H1 Ht1 H2 Ht2. unfold fetch_channels.
  unfold bind at 1. unfold print at 1, emit at 1.
  change (State (cache st) (cache_expiry st) (heap st)
                (trace st ++ [Printed FetchingChannelsAndStreams]))
    with (add_trace st [Printed FetchingChannelsAndStreams]).
  unfold bind at 1. rewrite H1, Ht1. simpl.
  unfold bind at 1. rewrite H2, Ht2. simpl.
  unfold bind at 1.
  destruct (filter_channels_prints pol (as_list r1) st2) as (out & tr1 & Hf & Hp1).
  rewrite Hf. unfold bind at 1.
  assert (∃ tr2, match out with
                 | [] => print NoChannelsAfterFiltering;;
                         print_samples 0 (take 5 (as_list r1))
                 | _ :: _ => ret tt
                 end (add_trace st2 tr1) = (Ok tt, add_trace st2 (tr1 ++ tr2))
                 ∧ prints_only tr2) as (tr2 & Hs & Hp2).
  { destruct out.
    - unfold bind at 1. unfold print at 1, emit at 1.
      match goal with
      | |- context [print_samples ?i ?l ?s] =>
          destruct (print_samples_prints l i s) as (tr & Htr & Hp); rewrite Htr
      end.
      eexists. unfold add_trace; simpl. rewrite <- !app_assoc.
      split; [reflexivity|]. by apply (prints_only_app [_]).
    - exists []. unfold ret. by rewrite app_nil_r. }
  rewrite Hs.
  destruct (match_streams_to_channels_spec out (as_list r2)
              (add_trace st2 (tr1 ++ tr2))) as (h' & Hm & _).
  rewrite Hm. simpl. rewrite <- app_assoc.
  eexists. split; [reflexivity|].
  apply prints_only_app; [by apply prints_only_app|done].
Qed.

Lemma sublist_one_of_two (q : list string) x y :
  q `sublist_of` [x] → q `sublist_of` [x; y].
Proof.
  intros Hsub. rewrite <- (app_nil_r q).
  apply (sublist_app q [x] [] [y]); [done|apply sublist_nil_l].
Qed.

(** X11 (at most two requests).  One pipeline run sends at most one request
    for the channel resource and at most one for the stream resource, the
    channel request first, and no other request. *)
Theorem pipeline_sends_at_most_two_requests pol w1 w2 st :
  ∃ reqs, requests_of (trace (fetch_channels pol w1 w2 st).2)
          = requests_of (trace st) ++ reqs ∧
    reqs `sublist_of` [IPTV_CHANNELS_URL; IPTV_STREAMS_URL].
Proof.
  pose proof (fetch_channels_tail pol w1 w2 st) as Htail.
  destruct (fetch_channels_outcome pol w1 w2 st)
    as [e st1 st0 H1|r1 st1 st0 H1 Ht1|r1 st1 e st2 st0 H1 Ht1 H2
       |r1 st1 r2 st2 st0 H1 Ht1 H2 Ht2
       |r1 st1 r2 st2 h' tr st0 H1 Ht1 H2 Ht2 out Hun Hs Hin];
    subst st0;
    destruct (fetch_with_cache_requests IPTV_CHANNELS_URL w1
                (add_trace st [Printed FetchingChannelsAndStreams]))
      as (q1 & Hq1 & Hsub1);
    rewrite H1 in Hq1; simpl in Hq1;
    rewrite requests_of_app in Hq1; simpl in Hq1; rewrite app_nil_r in Hq1;
    try (destruct (fetch_with_cache_requests IPTV_STREAMS_URL w2 st1)
           as (q2 & Hq2 & Hsub2);
         rewrite H2 in Hq2; simpl in Hq2; rewrite Hq1 in Hq2).
  - exists q1. split; [done|]. by apply sublist_one_of_two.
  - exists q1. simpl. rewrite requests_of_app. simpl. rewrite app_nil_r.
    split; [done|]. by apply sublist_one_of_two.
  - exists (q1 ++ q2). rewrite app_assoc. split; [done|].
    by apply (sublist_app q1 [_] q2 [_]).
  - exists (q1 ++ q2). simpl. rewrite requests_of_app. simpl.
    rewrite app_nil_r, app_assoc. split; [done|].
    by apply (sublist_app q1 [_] q2 [_]).
  - destruct (Htail r1 st1 r2 st2 H1 Ht1 H2 Ht2) as (tr' & Htr' & Hp).
    exists (q1 ++ q2). rewrite Htr', requests_of_app, Hp, app_nil_r, Hq2, app_assoc.
    split; [done|]. by apply (sublist_app q1 [_] q2 [_]).
Qed.


(** A run made while both entries are valid. *)
Lemma fetch_channels_fresh pol w1 w2 st d1 e1 d2 e2 :
  cache st !! IPTV_CHANNELS_URL = Some d1 →
  cache_expiry st !! IPTV_CHANNELS_URL = Some e1 →
  utcnow w1 < e1 →
  cache st !! IPTV_STREAMS_URL = Some d2 →
  cache_expiry st !! IPTV_STREAMS_URL = Some e2 →
  utcnow w2 < e2 →
  let st' := (fetch_channels pol w1 w2 st).2 in
  requests_of (trace st') = requests_of (trace st) ∧
  cache st' = cache st ∧ cache_expiry st' = cache_expiry st.
Proof.
  intros Hc1 He1 Hlt1 Hc2 He2 Hlt2.
  pose proof (fetch_with_cache_hit IPTV_CHANNELS_URL w1
                (add_trace st [Printed FetchingChannelsAndStreams]) d1 e1
                Hc1 He1 Hlt1) as Hhit1.
  pose proof (fetch_with_cache_hit IPTV_STREAMS_URL w2
                (add_trace (add_trace st [Printed FetchingChannelsAndStreams])
                   [Printed (ServingCached IPTV_CHANNELS_URL)]) d2 e2
                Hc2 He2 Hlt2) as Hhit2.
  pose proof (fetch_channels_tail pol w1 w2 st) as Htail.
  destruct (fetch_channels_outcome pol w1 w2 st)
    as [e st1 st0 H1|r1 st1 st0 H1 Ht1|r1 st1 e st2 st0 H1 Ht1 H2
       |r1 st1 r2 st2 st0 H1 Ht1 H2 Ht2
       |r1 st1 r2 st2 h' tr st0 H1 Ht1 H2 Ht2 out Hun Hs Hin];
    subst st0; rewrite Hhit1 in H1; try discriminate H1;
    injection H1 as <- <-;
    try (rewrite Hhit2 in H2; try discriminate H2; injection H2 as <- <-);
    simpl; rewrite ?requests_of_app; simpl; rewrite ?app_nil_r; try done.
  destruct (Htail (Some d1) _ (Some d2) _ Hhit1 Ht1 Hhit2 Ht2) as (tr' & Htr' & Hp).
  simpl in Htr'. apply app_inv_head in Htr' as ->.
  by rewrite Hp, app_nil_r.
Qed.

Lemma passes_unjoin pol h h' c :
  map unjoin h' = map unjoin h → passes pol (deref h' c) = passes pol (deref h c).
Proof.
  intros Hun. pose proof (deref_unjoin h h' c Hun) as Hd.
  change (passes pol (unjoin (deref h' c)) = passes pol (unjoin (deref h c))).
  by rewrite Hd.
Qed.

(** The view of a run and the channel list in the cache after it. *)
Lemma fetch_channels_view pol w1 w2 st view st' :
  fetch_channels pol w1 w2 st = (Ok view, st') →
  view = [] ∨
  view = filter (λ c, passes pol (deref (heap st') c) = true)
                (as_list (cache st' !! IPTV_CHANNELS_URL)).
Proof.
  intros Hrun.
  destruct (fetch_channels_outcome pol w1 w2 st)
    as [e st1 st0 H1|r1 st1 st0 H1 Ht1|r1 st1 e st2 st0 H1 Ht1 H2
       |r1 st1 r2 st2 st0 H1 Ht1 H2 Ht2
       |r1 st1 r2 st2 h' tr st0 H1 Ht1 H2 Ht2 out Hun Hs Hin];
    try discriminate Hrun; injection Hrun as <- <-; [by left..|].
  right. simpl.
  pose proof (fetch_with_cache_result_cached _ _ _ _ _ H1) as Hc1.
  destruct (fetch_with_cache_other IPTV_CHANNELS_URL IPTV_STREAMS_URL w2 st1
              urls_differ) as [Hc2 _].
  rewrite H2 in Hc2. simpl in Hc2. rewrite Hc2, Hc1.
  subst out. apply list_filter_iff. intros c. by rewrite (passes_unjoin pol _ _ c Hun).
Qed.

Lemma fetch_channels_view_passes pol w1 w2 st view st' :
  fetch_channels pol w1 w2 st = (Ok view, st') →
  Forall (λ c, passes pol (deref (heap st') c) = true) view ∧
  view `sublist_of` as_list (cache st' !! IPTV_CHANNELS_URL).
Proof.
  intros Hrun.
  destruct (fetch_channels_view pol w1 w2 st view st' Hrun) as [->| ->].
  - split; [constructor|apply sublist_nil_l].
  - split; [|apply sublist_filter].
    apply Forall_forall. intros c Hin. by apply list_elem_of_filter in Hin as [? _].
Qed.

(** A run made while both entries are valid returns normally. *)
Lemma fetch_channels_fresh_ok pol w1 w2 st d1 e1 d2 e2 :
  cache st !! IPTV_CHANNELS_URL = Some d1 →
  cache_expiry st !! IPTV_CHANNELS_URL = Some e1 →
  utcnow w1 < e1 →
  cache st !! IPTV_STREAMS_URL = Some d2 →
  cache_expiry st !! IPTV_STREAMS_URL = Some e2 →
  utcnow w2 < e2 →
  ∃ view st', fetch_channels pol w1 w2 st = (Ok view, st').
Proof.
  intros Hc1 He1 Hlt1 Hc2 He2 Hlt2.
  pose proof (fetch_with_cache_hit IPTV_CHANNELS_URL w1
                (add_trace st [Printed FetchingChannelsAndStreams]) d1 e1
                Hc1 He1 Hlt1) as Hhit1.
  pose proof (fetch_with_cache_hit IPTV_STREAMS_URL w2
                (add_trace (add_trace st [Printed FetchingChannelsAndStreams])
                   [Printed (ServingCached IPTV_CHANNELS_URL)]) d2 e2
                Hc2 He2 Hlt2) as Hhit2.
  destruct (fetch_channels_outcome pol w1 w2 st)
    as [e st1 st0 H1|r1 st1 st0 H1 Ht1|r1 st1 e st2 st0 H1 Ht1 H2
       |r1 st1 r2 st2 st0 H1 Ht1 H2 Ht2
       |r1 st1 r2 st2 h' tr st0 H1 Ht1 H2 Ht2 out Hun Hs Hin];
    try (by eexists _, _); subst st0; rewrite Hhit1 in H1; try discriminate H1.
  injection H1 as <- <-. rewrite Hhit2 in H2. discriminate H2.
Qed.

(** X12 (no request while both entries are valid).  A pipeline run whose
    two clock readings are before the expiries of the two entries returns
    normally with channels of the cached list, whatever the upstream would
    answer: it sends no request and leaves both cache dicts as they were. *)
Theorem pipeline_served_from_cache pol w1 w2 st d1 e1 d2 e2 :
  cache st !! IPTV_CHANNELS_URL = Some d1 →
  cache_expiry st !! IPTV_CHANNELS_URL = Some e1 →
  utcnow w1 < e1 →
  cache st !! IPTV_STREAMS_URL = Some d2 →
  cache_expiry st !! IPTV_STREAMS_URL = Some e2 →
  utcnow w2 < e2 →
  ∃ view st', fetch_channels pol w1 w2 st = (Ok view, st') ∧
    view `sublist_of` d1 ∧
    requests_of (trace st') = requests_of (trace st) ∧
    cache st' = cache st ∧ cache_expiry st' = cache_expiry st.
Proof.
  intros Hc1 He1 Hlt1 Hc2 He2 Hlt2.
  destruct (fetch_channels_fresh_ok pol w1 w2 st d1 e1 d2 e2
              Hc1 He1 Hlt1 Hc2 He2 Hlt2) as (view & st' & Hrun).
  destruct (fetch_channels_fresh pol w1 w2 st d1 e1 d2 e2
              Hc1 He1 Hlt1 Hc2 He2 Hlt2) as (Hreq & Hcache & Hexp).
  rewrite Hrun in Hreq, Hcache, Hexp. simpl in Hreq, Hcache, Hexp.
  destruct (fetch_channels_view_passes pol w1 w2 st view st' Hrun) as [_ Hsub].
  rewrite Hcache, Hc1 in Hsub.
  exists view, st'. done.
Qed.

(** X13 (the view is the filtered cache).  The list a pipeline run returns
    holds objects of the channel list that the cache holds after the run, in
    cache order, each passing the policy; when it is not empty it is that
    whole list filtered by the policy, so a channel is listed whether or not
    a stream matches it. *)
Theorem view_is_the_filtered_cache pol w1 w2 st view st' :
  fetch_channels pol w1 w2 st = (Ok view, st') →
  view `sublist_of` as_list (cache st' !! IPTV_CHANNELS_URL) ∧
  Forall (λ c, passes pol (deref (heap st') c) = true) view ∧
  (view ≠ [] →
   view = filter (λ c, passes pol (deref (heap st') c) = true)
                 (as_list (cache st' !! IPTV_CHANNELS_URL))).
Proof.
  intros Hrun.
  destruct (fetch_channels_view_passes pol w1 w2 st view st' Hrun) as [Hall Hsub].
  split; [done|]. split; [done|]. intros Hne.
  by destruct (fetch_channels_view pol w1 w2 st view st' Hrun).
Qed.

(** With every cached key having an expiry, a clock reading in range and an
    answer that is records or a request error, a call returns normally. *)
Lemma fetch_with_cache_ok url w st :
  cache_consistent st → in_range w → handled (upstream w) →
  ∃ r st', fetch_with_cache url w st = (Ok r, st').
Proof.
  unfold in_range. intros Hinv Hr Hw.
  destruct (fetch_with_cache_outcome url w st) as [data expiry Hc He Hlt
    |data Hc He|records _ Hup _ data|records _ Hup Hgt data
    |why _ Hup|e _ Hup Hne]; try by eexists _, _.
  - destruct (Hinv url) as [expiry He']; [by eexists|]. congruence.
  - lia.
  - rewrite Hup in Hw. destruct e; simpl in Hw; try done. by destruct (Hne why).
Qed.

Lemma fetch_channels_ok pol w1 w2 st :
  cache_consistent st → in_range w1 → in_range w2 →
  handled (upstream w1) → handled (upstream w2) →
  ∃ view st', fetch_channels pol w1 w2 st = (Ok view, st').
Proof.
  intros Hinv Hr1 Hr2 Hw1 Hw2.
  assert (cache_consistent (add_trace st [Printed FetchingChannelsAndStreams]))
    as Hinv0 by done.
  destruct (fetch_with_cache_ok IPTV_CHANNELS_URL w1 _ Hinv0 Hr1 Hw1)
    as (r1 & st1 & Hok1).
  pose proof (fetch_with_cache_consistent IPTV_CHANNELS_URL w1 _ Hr1 Hinv0) as Hinv1.
  rewrite Hok1 in Hinv1. simpl in Hinv1.
  destruct (fetch_with_cache_ok IPTV_STREAMS_URL w2 _ Hinv1 Hr2 Hw2)
    as (r2 & st2 & Hok2).
  destruct (fetch_channels_outcome pol w1 w2 st); inline_lets;
    try by eexists _, _.
  - congruence.
  - match goal with
    | H : fetch_with_cache IPTV_CHANNELS_URL _ _ = _ |- _ =>
        rewrite Hok1 in H; injection H as <- <-
    end. congruence.
Qed.

(** X14 (request errors do not reach a handler).  In a state in which
    every cached key has an expiry, with both clock readings at least 600
    seconds before [datetime.max], when what the upstream answers to the
    run's requests is a list of well-typed records or a [RequestException],
    the pipeline run returns normally, and so do the catalog and the stream
    handlers, whatever the path. *)
Theorem handlers_return_on_request_errors pol w1 w2 st :
  cache_consistent st →
  utcnow w1 + 600 * 1000000 ≤ datetime_max →
  utcnow w2 + 600 * 1000000 ≤ datetime_max →
  handled (upstream w1) → handled (upstream w2) →
  (∃ view st', fetch_channels pol w1 w2 st = (Ok view, st')) ∧
  ∀ type id,
    (∃ resp st', catalog pol type id w1 w2 st = (Ok resp, st')) ∧
    (∃ resp st', stream pol type id w1 w2 st = (Ok resp, st')).
Proof.
  intros Hinv Hr1 Hr2 Hw1 Hw2.
  destruct (fetch_channels_ok pol w1 w2 st Hinv Hr1 Hr2 Hw1 Hw2)
    as (view & st' & Hrun).
  split; [by eexists _, _|]. intros type id. split.
  - unfold catalog. case_match; [|by eexists _, _].
    unfold bind. rewrite Hrun. by eexists _, _.
  - unfold stream. case_match; [|by eexists _, _].
    unfold bind. rewrite Hrun. by eexists _, _.
Qed.

Lemma still_valid_false_frame url now st st' :
  still_valid url now st = (Ok false, st) →
  cache st' !! url = cache st !! url →
  cache_expiry st' !! url = cache_expiry st !! url →
  still_valid url now st' = (Ok false, st').
Proof.
  intros Hv Hc He.
  pose proof (still_valid_frame url now st st' Hc He) as H1.
  pose proof (still_valid_state url now st') as H2.
  rewrite Hv in H1. simpl in H1.
  destruct (still_valid url now st') as [r s]. simpl in *. congruence.
Qed.

(** A run that finds no valid entry and gets records from both resources,
    at clock readings in range, leaves both entries valid for 600 seconds
    from its two clock readings. *)
Lemma fetch_channels_fetched pol w1 w2 st c cs s ss :
  in_range w1 → in_range w2 →
  still_valid IPTV_CHANNELS_URL (utcnow w1) st = (Ok false, st) →
  still_valid IPTV_STREAMS_URL (utcnow w2) st = (Ok false, st) →
  upstream w1 = Payload (c :: cs) →
  upstream w2 = Payload (s :: ss) →
  let st' := (fetch_channels pol w1 w2 st).2 in
  is_Some (cache st' !! IPTV_CHANNELS_URL) ∧
  cache_expiry st' !! IPTV_CHANNELS_URL
  = Some (utcnow w1 + timedelta_seconds CACHE_TTL) ∧
  is_Some (cache st' !! IPTV_STREAMS_URL) ∧
  cache_expiry st' !! IPTV_STREAMS_URL
  = Some (utcnow w2 + timedelta_seconds CACHE_TTL).
Proof.
  intros Hr1 Hr2 Hv1 Hv2 Hup1 Hup2.
  set (st0 := add_trace st [Printed FetchingChannelsAndStreams]).
  assert (still_valid IPTV_CHANNELS_URL (utcnow w1) st0 = (Ok false, st0)) as Hv1'
    by (by apply (still_valid_false_frame _ _ st)).
  pose proof (fetch_with_cache_fetched _ _ _ _ Hr1 Hv1' Hup1) as Hf1.
  match type of Hf1 with _ = (_, ?s) => set (st1 := s) in * end.
  assert (still_valid IPTV_STREAMS_URL (utcnow w2) st1 = (Ok false, st1)) as Hv2'.
  { apply (still_valid_false_frame _ _ st); [done|..]; simpl;
      by rewrite lookup_insert_ne by (symmetry; apply urls_differ). }
  pose proof (fetch_with_cache_fetched _ _ _ _ Hr2 Hv2' Hup2) as Hf2.
  destruct (fetch_channels_outcome pol w1 w2 st)
    as [e st1' st0' H1|r1 st1' st0' H1 Ht1|r1 st1' e st2 st0' H1 Ht1 H2
       |r1 st1' r2 st2 st0' H1 Ht1 H2 Ht2
       |r1 st1' r2 st2 h' tr st0' H1 Ht1 H2 Ht2 out Hun Hs Hin];
    subst st0'; fold st0 in H1; rewrite Hf1 in H1; try discriminate H1;
    injection H1 as <- <-; try discriminate Ht1;
    rewrite Hf2 in H2; try discriminate H2; injection H2 as <- <-;
    try discriminate Ht2.
  simpl. pose proof urls_differ as Hne.
  split_and!; rewrite ?lookup_insert_eq; rewrite ?lookup_insert_ne by done;
    rewrite ?lookup_insert_eq; try done; by eexists.
Qed.

(** X15 (a refresh warms the cache).  After a scheduled refresh that found
    no valid entry and got records from both resources, at clock readings at
    least 600 seconds before [datetime.max], every pipeline run whose clock
    readings are within 600 seconds of those of the refresh sends no
    request.  With the interval of 300 seconds this covers the next
    scheduled refresh, which therefore fetches nothing. *)
Theorem refresh_warms_the_cache pol w1 w2 st c cs s ss pol' w1' w2' :
  utcnow w1 + 600 * 1000000 ≤ datetime_max →
  utcnow w2 + 600 * 1000000 ≤ datetime_max →
  still_valid IPTV_CHANNELS_URL (utcnow w1) st = (Ok false, st) →
  still_valid IPTV_STREAMS_URL (utcnow w2) st = (Ok false, st) →
  upstream w1 = Payload (c :: cs) →
  upstream w2 = Payload (s :: ss) →
  utcnow w1' < utcnow w1 + timedelta_seconds CACHE_TTL →
  utcnow w2' < utcnow w2 + timedelta_seconds CACHE_TTL →
  let st' := (refresh_data pol w1 w2 st).2 in
  requests_of (trace (fetch_channels pol' w1' w2' st').2) = requests_of (trace st').
Proof.
  intros Hr1 Hr2 Hv1 Hv2 Hup1 Hup2 Hlt1 Hlt2.
  destruct (fetch_channels_fetched pol w1 w2 st c cs s ss
              Hr1 Hr2 Hv1 Hv2 Hup1 Hup2)
    as ([d1 Hc1] & He1 & [d2 Hc2] & He2).
  destruct (refresh_data_state pol w1 w2 st) as [ev Hst]. simpl. rewrite Hst.
  by destruct (fetch_channels_fresh pol' w1' w2'
                 (add_trace (fetch_channels pol w1 w2 st).2 [ev]) d1 _ d2 _
                 Hc1 He1 Hlt1 Hc2 He2 Hlt2) as [Hreq _].
Qed.

(** ** The handlers *)

Lemma stream_loop_jsonify h id channels :
  ∃ entries, stream_loop h id channels = jsonify (StreamsBody entries).
Proof.
  induction channels as [|c channels IH]; simpl; [by eexists|].
  case_bool_decide; [by eexists|done].
Qed.

Lemma stream_loop_no_match h id channels :
  (∀ c, c ∈ channels → d_id (deref h c) ≠ Some id) →
  stream_loop h id channels = jsonify (StreamsBody []).
Proof.
  induction channels as [|c channels IH]; intros Hno; simpl; [done|].
  rewrite bool_decide_eq_false_2 by (apply Hno; by left).
  apply IH. intros c' Hin. apply Hno. by right.
Qed.

Lemma stream_loop_first_match h id before c after :
  (∀ c', c' ∈ before → d_id (deref h c') ≠ Some id) →
  d_id (deref h c) = Some id →
  stream_loop h id (before ++ c :: after)
  = jsonify (StreamsBody (map (entry_of h) (attached_streams (deref h c)))).
Proof.
  induction before as [|b before IH]; intros Hno Hid; simpl.
  - by rewrite bool_decide_eq_true_2.
  - rewrite bool_decide_eq_false_2 by (apply Hno; by left).
    apply IH; [|done]. intros c' Hin. apply Hno. by right.
Qed.

(** X16 (only what the manifest advertises runs the pipeline).  A catalog
    request for anything but a catalog listed in the manifest, and a stream
    request for a type the manifest does not list, is answered with an empty
    list at once: no pipeline run, no request, no change of state. *)
Theorem unadvertised_requests_are_answered_empty pol type id w1 w2 st :
  ((∀ entry, entry ∈ mf_catalogs manifest_data →
             ¬ (c_type entry = type ∧ c_id entry = id)) →
   catalog pol type id w1 w2 st = (Ok (jsonify (MetasBody [])), st)) ∧
  (type ∉ mf_types manifest_data →
   stream pol type id w1 w2 st = (Ok (jsonify (StreamsBody [])), st)).
Proof.
  split.
  - intros Hno. unfold catalog.
    destruct (bool_decide (type = "tv"%string)) eqn:Ht;
      destruct (bool_decide (id = "iptv_catalog"%string)) eqn:Hi; try done.
    apply bool_decide_eq_true in Ht, Hi. subst.
    exfalso. eapply Hno; [by left|done].
  - intros Hno. unfold stream. case_bool_decide as Ht; [|done].
    subst. exfalso. apply Hno. by left.
Qed.

(** X17 (what the catalog lists).  The metas of a catalog answer are those
    of the channels of the pipeline run's view, one each and in order: every
    listed channel passes the policy, and all of them are objects of the
    channel list in the cache. *)
Theorem catalog_lists_the_view pol w1 w2 st resp st' :
  catalog pol "tv" "iptv_catalog" w1 w2 st = (Ok resp, st') →
  ∃ view, fetch_channels pol w1 w2 st = (Ok view, st') ∧
    resp = jsonify (MetasBody (map (meta_of (heap st')) view)) ∧
    Forall (λ c, passes pol (deref (heap st') c) = true) view ∧
    view `sublist_of` as_list (cache st' !! IPTV_CHANNELS_URL).
Proof.
  unfold catalog. simpl. unfold bind, get_state, ret.
  destruct (fetch_channels pol w1 w2 st) as [[view|e] st1] eqn:Hrun; [|done].
  intros [= <- <-]. exists view. split; [done|]. split; [done|].
  by apply (fetch_channels_view_passes pol w1 w2 st).
Qed.

(** X18 (unknown channel).  When no channel of the view has the requested
    ['id'] (the channel is not upstream, was filtered out, or has no id), the
    stream handler answers with an empty list, as it does for a channel that
    has no streams. *)
Theorem stream_of_unknown_channel_is_empty pol id w1 w2 st view st' :
  fetch_channels pol w1 w2 st = (Ok view, st') →
  (∀ c, c ∈ view → d_id (deref (heap st') c) ≠ Some id) →
  stream pol "tv" id w1 w2 st = (Ok (jsonify (StreamsBody [])), st').
Proof.
  intros Hrun Hno. unfold stream. simpl. unfold bind, get_state, ret.
  rewrite Hrun. by rewrite stream_loop_no_match.
Qed.

(** X19 (first match wins).  The stream handler answers with the streams of
    the first channel of the view whose ['id'] is the requested one, each
    with its url and its title, "Stream" when it has none; later channels
    with the same id are not looked at. *)
Theorem stream_answers_with_first_match pol id w1 w2 st before c after st' :
  fetch_channels pol w1 w2 st = (Ok (before ++ c :: after), st') →
  (∀ c', c' ∈ before → d_id (deref (heap st') c') ≠ Some id) →
  d_id (deref (heap st') c) = Some id →
  stream pol "tv" id w1 w2 st
  = (Ok (jsonify (StreamsBody
           (map (entry_of (heap st')) (attached_streams (deref (heap st') c))))),
     st').
Proof.
  intros Hrun Hno Hid. unfold stream. simpl. unfold bind, get_state, ret.
  rewrite Hrun. by rewrite stream_loop_first_match.
Qed.

(** A run at a cache without channel entry whose channel request fails. *)
Lemma fetch_channels_cold pol w1 w2 st why :
  cache st !! IPTV_CHANNELS_URL = None →
  upstream w1 = Failure (RequestException why) →
  ∃ st', fetch_channels pol w1 w2 st = (Ok [], st').
Proof.
  intros Hc Hup.
  destruct (fetch_channels_outcome pol w1 w2 st)
    as [e st1 st0 H1|r1 st1 st0 H1 Ht1|r1 st1 e st2 st0 H1 Ht1 H2
       |r1 st1 r2 st2 st0 H1 Ht1 H2 Ht2
       |r1 st1 r2 st2 h' tr st0 H1 Ht1 H2 Ht2 out Hun Hs Hin];
    try (by eexists); subst st0; exfalso;
    destruct (fetch_with_cache_outcome IPTV_CHANNELS_URL w1
                (add_trace st [Printed FetchingChannelsAndStreams]))
      as [data expiry Hc' He' Hlt|data Hc' He'|records _ Hup' _ data
         |records _ Hup' _ data
         |why' _ Hup'|e' _ Hup' Hne]; simpl in *; try congruence.
  all: try (rewrite Hup in Hup'; injection Hup' as <-; by destruct (Hne why)).
  all: injection H1 as <- <-; rewrite Hc in Ht1; done.
Qed.

(** X20 (nothing cached, upstream down).  When the cache holds no channel
    entry and the channel request fails with a request error, the catalog
    handler answers with no metas and the stream handler with no streams,
    for every path. *)
Theorem cold_failure_gives_empty_answers pol type id w1 w2 st why :
  cache st !! IPTV_CHANNELS_URL = None →
  upstream w1 = Failure (RequestException why) →
  (∃ st', catalog pol type id w1 w2 st = (Ok (jsonify (MetasBody [])), st')) ∧
  (∃ st', stream pol type id w1 w2 st = (Ok (jsonify (StreamsBody [])), st')).
Proof.
  intros Hc Hup.
  destruct (fetch_channels_cold pol w1 w2 st why Hc Hup) as [st' Hrun].
  split.
  - unfold catalog. case_match; [|by eexists].
    unfold bind, get_state, ret. rewrite Hrun. by eexists.
  - unfold stream. case_match; [|by eexists].
    unfold bind, get_state, ret. rewrite Hrun. by eexists.
Qed.

(** X21 (cross-origin headers).  The manifest answer carries the two
    [Access-Control-Allow-*] headers, set to "*"; no answer of the catalog
    or of the stream handler carries them. *)
Theorem only_the_manifest_allows_cross_origin :
  headers manifest !! "Access-Control-Allow-Origin"%string = Some "*"%string ∧
  headers manifest !! "Access-Control-Allow-Headers"%string = Some "*"%string ∧
  ∀ pol type id w1 w2 st resp st',
    catalog pol type id w1 w2 st = (Ok resp, st') ∨
    stream pol type id w1 w2 st = (Ok resp, st') →
    headers resp !! "Access-Control-Allow-Origin"%string = None ∧
    headers resp !! "Access-Control-Allow-Headers"%string = None.
Proof.
  split; [by vm_compute|]. split; [by vm_compute|].
  intros pol type id w1 w2 st resp st' Hrun.
  assert (∃ data, resp = jsonify data) as [data ->].
  { destruct Hrun as [Hrun|Hrun].
    - unfold catalog in Hrun. case_match.
      + unfold bind, get_state, ret in Hrun.
        destruct (fetch_channels pol w1 w2 st) as [[view|e] st1]; [|done].
        injection Hrun as <- _. by eexists.
      + injection Hrun as <- _. by eexists.
    - unfold stream in Hrun. case_match.
      + unfold bind, get_state, ret in Hrun.
        destruct (fetch_channels pol w1 w2 st) as [[view|e] st1]; [|done].
        injection Hrun as <- _.
        destruct (stream_loop_jsonify (heap st1) id view) as [entries ->].
        by eexists.
      + injection Hrun as <- _. by eexists. }
  simpl. by rewrite !lookup_singleton_ne.
Qed.

(** ** The further properties at concrete inputs *)

Ltac before_max := vm_compute; discriminate.


(** X2: at second 600 sharp the entry of second 0 is not served any more. *)
Lemma request_sent_iff_expired_witness :
  requests_of (trace (fetch_with_cache IPTV_CHANNELS_URL
                        (at_second 600 upstream_down) warm_state).2)
  = requests_of (trace warm_state) ++ [IPTV_CHANNELS_URL].
Proof.
  rewrite (request_sent_iff_expired IPTV_CHANNELS_URL
             (at_second 600 upstream_down) warm_state [0%nat]
             (timedelta_seconds 600)); [reflexivity|evaluate..].
Defined.

(** X3: the failed call of second 700 leaves the entry of second 0. *)
Lemma failed_fetch_keeps_the_cache_witness :
  cache (fetch_with_cache IPTV_CHANNELS_URL (at_second 700 upstream_down)
           warm_state).2 = cache warm_state.
Proof.
  exact (proj1 (failed_fetch_keeps_the_cache IPTV_CHANNELS_URL
                  (at_second 700 upstream_down) warm_state _ eq_refl)).
Defined.

(** X4: with [ch1] cached but expired, an error that is no request error
    is raised to the caller. *)
Lemma other_exceptions_propagate_witness :
  (fetch_with_cache IPTV_CHANNELS_URL
     (at_second 700 (Failure (OtherException "boom"))) warm_state).1
  = Raise (OtherException "boom").
Proof.
  rewrite (other_exceptions_propagate IPTV_CHANNELS_URL
             (at_second 700 (Failure (OtherException "boom"))) warm_state
             (OtherException "boom")); [reflexivity|evaluate|reflexivity|].
  intros why. discriminate.
Defined.

(** X6: [ch1] passes the shipped policy, [ch2] does not; filtering [ch1]
    again keeps it. *)
Lemma filter_twice_witness :
  (filter_channels source_policy [0%nat]
     (filter_channels source_policy [0; 1]%nat two_channels).2).1 = Ok [0%nat].
Proof.
  apply (filter_twice source_policy [0; 1]%nat two_channels). evaluate.
Defined.

(** X7: the record at 1 has no ['languages'] key. *)
Lemma missing_languages_excluded_witness :
  ∃ out st', filter_channels source_policy [0; 1]%nat joined_before = (Ok out, st') ∧
    1%nat ∉ out.
Proof.
  apply (missing_languages_excluded source_policy [0; 1]%nat joined_before 1%nat).
  evaluate.
Defined.

(** X9: the channel at 0 carries the stream at 1; joined against the list
    [[1; 2]], in which the stream at 1 matches, it carries the stream at 1. *)
Lemma join_replaces_on_match_witness :
  ∃ st', match_streams_to_channels [0%nat] [1; 2]%nat joined_before
         = (Ok [0%nat], st') ∧
    d_streams (deref (heap st') 0) = Some [1%nat].
Proof.
  destruct (join_replaces_on_match [0%nat] [1; 2]%nat joined_before 0%nat)
    as (st' & Hrun & Hstreams & _).
  - by left.
  - simpl. lia.
  - vm_compute. discriminate.
  - exists st'. split; [exact Hrun|exact Hstreams].
Defined.

(** X10 *)
Lemma join_twice_witness :
  ∃ st2,
    match_streams_to_channels [0%nat] [1; 2]%nat
      (match_streams_to_channels [0%nat] [1; 2]%nat joined_before).2
    = (Ok [0%nat], st2) ∧
    heap st2 = heap (match_streams_to_channels [0%nat] [1; 2]%nat joined_before).2.
Proof.
  apply (join_twice [0%nat] [1; 2]%nat joined_before). evaluate.
Defined.

(** X12: a run at second 300 after the run of second 0, upstream down. *)
Lemma pipeline_served_from_cache_witness :
  ∃ view st',
    fetch_channels source_policy (at_second 300 upstream_down)
      (at_second 300 upstream_down) first_run_state = (Ok view, st') ∧
    requests_of (trace st') = requests_of (trace first_run_state).
Proof.
  destruct (pipeline_served_from_cache source_policy
              (at_second 300 upstream_down) (at_second 300 upstream_down)
              first_run_state [0%nat] (timedelta_seconds 600)
              [1%nat] (timedelta_seconds 600))
    as (view & st' & Hrun & _ & Hreq & _); [evaluate..|].
  exists view, st'. split; [exact Hrun|exact Hreq].
Defined.

(** X13: of [ch1] and [ch2] the view holds [ch1]. *)
Lemma view_is_the_filtered_cache_witness :
  let run := fetch_channels source_policy (at_second 0 (Payload [ch1; ch2]))
               (at_second 0 (Payload [stream_a])) initial_state in
  run.1 = Ok [0%nat] ∧
  [0%nat] `sublist_of` as_list (cache run.2 !! IPTV_CHANNELS_URL).
Proof.
  intros run. split; [evaluate|].
  apply (view_is_the_filtered_cache source_policy
           (at_second 0 (Payload [ch1; ch2]))
           (at_second 0 (Payload [stream_a])) initial_state [0%nat] run.2).
  evaluate.
Defined.

(** X14: at the empty cache with the upstream down. *)
Lemma handlers_return_on_request_errors_witness :
  ∃ view st', fetch_channels source_policy (at_second 0 upstream_down)
                (at_second 0 upstream_down) initial_state = (Ok view, st').
Proof.
  apply (handlers_return_on_request_errors source_policy
           (at_second 0 upstream_down) (at_second 0 upstream_down) initial_state).
  - apply initial_state_consistent.
  - before_max.
  - before_max.
  - exact I.
  - exact I.
Defined.

(** X15: a refresh at second 0, the next run one interval later. *)
Lemma refresh_warms_the_cache_witness :
  let st' := (refresh_data source_policy (at_second 0 (Payload [ch1]))
                (at_second 0 (Payload [stream_a])) initial_state).2 in
  let w := at_second FETCH_INTERVAL upstream_down in
  requests_of (trace (fetch_channels source_policy w w st').2)
  = requests_of (trace st').
Proof.
  apply (refresh_warms_the_cache source_policy (at_second 0 (Payload [ch1]))
           (at_second 0 (Payload [stream_a])) initial_state
           ch1 [] stream_a []); [before_max|before_max|evaluate..].
Defined.

(** X16: a catalog of movies is not advertised. *)
Lemma unadvertised_requests_are_answered_empty_witness :
  catalog source_policy "movie" "top" (at_second 0 (Payload [ch1]))
    (at_second 0 (Payload [stream_a])) initial_state
  = (Ok (jsonify (MetasBody [])), initial_state) ∧
  stream source_policy "movie" "ch1" (at_second 0 (Payload [ch1]))
    (at_second 0 (Payload [stream_a])) initial_state
  = (Ok (jsonify (StreamsBody [])), initial_state).
Proof.
  destruct (unadvertised_requests_are_answered_empty source_policy
              "movie" "top" (at_second 0 (Payload [ch1]))
              (at_second 0 (Payload [stream_a])) initial_state) as [Hcat _].
  destruct (unadvertised_requests_are_answered_empty source_policy
              "movie" "ch1" (at_second 0 (Payload [ch1]))
              (at_second 0 (Payload [stream_a])) initial_state) as [_ Hstr].
  split.
  - apply Hcat. intros entry Hin [Ht _].
    apply list_elem_of_singleton in Hin. subst entry. discriminate Ht.
  - apply Hstr. intros Hin. apply list_elem_of_singleton in Hin. discriminate Hin.
Defined.

(** X17: the catalog of [ch1] and [ch2] lists [ch1]. *)
Lemma catalog_lists_the_view_witness :
  let w1 := at_second 0 (Payload [ch1; ch2]) in
  let w2 := at_second 0 (Payload [stream_a]) in
  ∃ view, fetch_channels source_policy w1 w2 initial_state
          = (Ok view, (fetch_channels source_policy w1 w2 initial_state).2) ∧
    jsonify (MetasBody [Meta (Some "ch1"%string) "tv" None None []])
    = jsonify (MetasBody
        (map (meta_of (heap (fetch_channels source_policy w1 w2 initial_state).2))
             view)).
Proof.
  intros w1 w2.
  destruct (catalog_lists_the_view source_policy w1 w2 initial_state
              (jsonify (MetasBody [Meta (Some "ch1"%string) "tv" None None []]))
              (fetch_channels source_policy w1 w2 initial_state).2)
    as (view & Hrun & Hresp & _); [evaluate|].
  exists view. split; [exact Hrun|exact Hresp].
Defined.

(** X18: no channel "nope". *)
Lemma stream_of_unknown_channel_is_empty_witness :
  let w1 := at_second 0 (Payload [ch1]) in
  let w2 := at_second 0 (Payload [stream_a]) in
  (stream source_policy "tv" "nope" w1 w2 initial_state).1
  = Ok (jsonify (StreamsBody [])).
Proof.
  intros w1 w2.
  rewrite (stream_of_unknown_channel_is_empty source_policy "nope" w1 w2
             initial_state [0%nat]
             (fetch_channels source_policy w1 w2 initial_state).2);
    [reflexivity|evaluate|].
  intros c Hin. apply list_elem_of_singleton in Hin. subst c.
  vm_compute. discriminate.
Defined.

(** X19: the streams of "ch1". *)
Lemma stream_answers_with_first_match_witness :
  let w1 := at_second 0 (Payload [ch1]) in
  let w2 := at_second 0 (Payload [stream_a]) in
  (stream source_policy "tv" "ch1" w1 w2 initial_state).1
  = Ok (jsonify (StreamsBody [StreamEntry "Stream" (Some "http://a"%string)])).
Proof.
  intros w1 w2.
  assert (fetch_channels source_policy w1 w2 initial_state
          = (Ok ([] ++ 0%nat :: []),
             (fetch_channels source_policy w1 w2 initial_state).2)) as Hrun
    by evaluate.
  assert (d_id (deref (heap (fetch_channels source_policy w1 w2 initial_state).2) 0)
          = Some "ch1"%string) as Hid by evaluate.
  rewrite (stream_answers_with_first_match source_policy "ch1" w1 w2
             initial_state [] 0%nat [] _ Hrun
             (λ c Hin, False_ind _ (not_elem_of_nil c Hin)) Hid).
  evaluate.
Defined.

(** X20: at the empty cache with the upstream down. *)
Lemma cold_failure_gives_empty_answers_witness :
  ∃ st', catalog source_policy "tv" "iptv_catalog" (at_second 0 upstream_down)
           (at_second 0 upstream_down) initial_state
         = (Ok (jsonify (MetasBody [])), st').
Proof.
  apply (cold_failure_gives_empty_answers source_policy "tv" "iptv_catalog"
           (at_second 0 upstream_down) (at_second 0 upstream_down)
           initial_state ConnectionError); evaluate.
Defined.

(** X21: the catalog answer for [ch1]. *)
Lemma only_the_manifest_allows_cross_origin_witness :
  let w1 := at_second 0 (Payload [ch1]) in
  let w2 := at_second 0 (Payload [stream_a]) in
  let resp := jsonify (MetasBody [Meta (Some "ch1"%string) "tv" None None []]) in
  (catalog source_policy "tv" "iptv_catalog" w1 w2 initial_state).1 = Ok resp ∧
  headers resp !! "Access-Control-Allow-Origin"%string = None.
Proof.
  intros w1 w2 resp. split; [evaluate|].
  destruct only_the_manifest_allows_cross_origin as (_ & _ & Hnone).
  assert (catalog source_policy "tv" "iptv_catalog" w1 w2 initial_state
          = (Ok resp, (fetch_channels source_policy w1 w2 initial_state).2))
    as Hrun by evaluate.
  exact (proj1 (Hnone source_policy "tv"%string "iptv_catalog"%string w1 w2
                  initial_state resp _ (or_introl Hrun))).
Defined.
